(** * KalaHeaders: wav_to_pcm.hpp

    A shallow embedding of [Convert_WAV] (src/audio/wav_to_pcm.hpp) and of
    the helpers it calls, followed by the properties of the decoder.

    Conventions of the embedding:
    - fixed-width unsigned integers are [Z] values, the wrap-around of each
      conversion written out ([to_u8], [to_size_t]); [size_t] is 64 bits wide
      and multi-byte fields are read in the little-endian byte order of the
      file, as [memcpy] into an integer does on the supported targets;
    - the file's bytes are a [list byte];
    - every read of [rawData] is bounds-checked by the model: a read outside
      the buffer is undefined behaviour in C++ and ends the run with
      [OutOfBounds] instead of a result; [memcmp] and [memcpy] count as
      reading all the bytes they are asked for;
    - [return] inside the function body, C++ exceptions and the surrounding
      [try]/[catch] are carried by the [step] monad;
    - the environment of a call (the files and the allocator) is an explicit
      argument and does not change during the call; a status query that
      fails throws, and outside the [try] block the exception leaves the
      function; the caller's output slot [outData] is passed in and handed
      back next to the result code;
    - a buffer allocation throws when the request exceeds the vector's
      [max_size]; the machine is taken to hold the file it reads, so that a
      request of no more bytes than the file has succeeds; whether a larger
      request succeeds or throws is for the allocator of the environment to
      say. *)

From Stdlib Require Import ZArith List Bool String Ascii Lia.
From Stdlib Require Import Strings.Byte.
Import ListNotations.

Open Scope string_scope.
Open Scope list_scope.
Open Scope Z_scope.

Module KalaHeaders.

(** ** Integer types *)

Definition to_u8 (z : Z) : Z := z mod 2 ^ 8.
Definition to_size_t (z : Z) : Z := z mod 2 ^ 64.

(** Little-endian value of a byte string, as [memcpy] into a zero-initialised
    unsigned integer at least as wide as the string yields it. *)
Fixpoint le_uint (bs : list byte) : Z :=
  match bs with
  | [] => 0
  | b :: bs' => Z.of_N (Byte.to_N b) + 256 * le_uint bs'
  end.

(** The bytes of a string literal. *)
Definition lit (s : string) : list byte := list_byte_of_string s.

(** ** Constants and allow-lists *)

Definition EXPECTED_DATA_POS_START : Z := 12.

Definition ALLOWED_SAMPLE_RATES : list Z := [44100; 48000; 96000; 192000].
Definition ALLOWED_CHANNELS : list Z := [1; 2].
Definition ALLOWED_BPS : list Z := [16; 24; 32].

(** ** Result codes and the decoded value *)

Inductive ConvertResult_WAV : Type :=
| RESULT_SUCCESS
| RESULT_FILE_NOT_FOUND
| RESULT_INVALID_EXTENSION
| RESULT_UNAUTHORIZED_READ
| RESULT_FILE_LOCKED
| RESULT_UNKNOWN_READ_ERROR
| RESULT_FILE_EMPTY
| RESULT_UNSUPPORTED_FILE_SIZE
| RESULT_INVALID_RIFF_MAGIC
| RESULT_INVALID_WAVE_MAGIC
| RESULT_INVALID_FMT_CHUNK
| RESULT_INVALID_FORMAT_TYPE
| RESULT_UNSUPPORTED_WAV_FORMAT
| RESULT_UNSUPPORTED_CHANNELS
| RESULT_UNSUPPORTED_SAMPLE_RATE
| RESULT_UNSUPPORTED_BITS_PER_SAMPLE
| RESULT_MISSING_DATA_CHUNK.

(** The enumerators' underlying [u8] values. *)
Definition result_code (r : ConvertResult_WAV) : Z :=
  match r with
  | RESULT_SUCCESS => 0
  | RESULT_FILE_NOT_FOUND => 1
  | RESULT_INVALID_EXTENSION => 2
  | RESULT_UNAUTHORIZED_READ => 3
  | RESULT_FILE_LOCKED => 4
  | RESULT_UNKNOWN_READ_ERROR => 5
  | RESULT_FILE_EMPTY => 6
  | RESULT_UNSUPPORTED_FILE_SIZE => 7
  | RESULT_INVALID_RIFF_MAGIC => 8
  | RESULT_INVALID_WAVE_MAGIC => 9
  | RESULT_INVALID_FMT_CHUNK => 10
  | RESULT_INVALID_FORMAT_TYPE => 11
  | RESULT_UNSUPPORTED_WAV_FORMAT => 12
  | RESULT_UNSUPPORTED_CHANNELS => 13
  | RESULT_UNSUPPORTED_SAMPLE_RATE => 14
  | RESULT_UNSUPPORTED_BITS_PER_SAMPLE => 15
  | RESULT_MISSING_DATA_CHUNK => 16
  end.

Record PCMData_WAV : Type := mkPCMData_WAV {
  pcmData : list byte;
  sampleRate : Z;
  bitsPerSample : Z;
  channels : Z
}.

(** [std::find] over the array, compared with its end. *)
Definition ContainsSampleRate (sr : Z) : bool :=
  existsb (Z.eqb sr) ALLOWED_SAMPLE_RATES.

Definition ContainsChannel (c : Z) : bool :=
  existsb (Z.eqb c) ALLOWED_CHANNELS.

Definition ContainsBPS (bps : Z) : bool :=
  existsb (Z.eqb bps) ALLOWED_BPS.

Definition ResultToString (result : ConvertResult_WAV) : string :=
  match result with
  | RESULT_SUCCESS => "RESULT_SUCCESS"
  | RESULT_FILE_NOT_FOUND => "RESULT_FILE_NOT_FOUND"
  | RESULT_INVALID_EXTENSION => "RESULT_INVALID_EXTENSION"
  | RESULT_UNAUTHORIZED_READ => "RESULT_UNAUTHORIZED_READ"
  | RESULT_FILE_LOCKED => "RESULT_FILE_LOCKED"
  | RESULT_UNKNOWN_READ_ERROR => "RESULT_UNKNOWN_READ_ERROR"
  | RESULT_FILE_EMPTY => "RESULT_FILE_EMPTY"
  | RESULT_UNSUPPORTED_FILE_SIZE => "RESULT_UNSUPPORTED_FILE_SIZE"
  | RESULT_INVALID_RIFF_MAGIC => "RESULT_INVALID_RIFF_MAGIC"
  | RESULT_INVALID_WAVE_MAGIC => "RESULT_INVALID_WAVE_MAGIC"
  | RESULT_INVALID_FMT_CHUNK => "RESULT_INVALID_FMT_CHUNK"
  | RESULT_INVALID_FORMAT_TYPE => "RESULT_INVALID_FORMAT_TYPE"
  | RESULT_UNSUPPORTED_WAV_FORMAT => "RESULT_UNSUPPORTED_WAV_FORMAT"
  | RESULT_UNSUPPORTED_CHANNELS => "RESULT_UNSUPPORTED_CHANNELS"
  | RESULT_UNSUPPORTED_SAMPLE_RATE => "RESULT_UNSUPPORTED_SAMPLE_RATE"
  | RESULT_UNSUPPORTED_BITS_PER_SAMPLE => "RESULT_UNSUPPORTED_BITS_PER_SAMPLE"
  | RESULT_MISSING_DATA_CHUNK => "RESULT_MISSING_DATA_CHUNK"
  end.

(** ** The filesystem seen through <filesystem> and <fstream> *)

Definition path : Type := string.

(** The component after the last directory separator. *)
Fixpoint has_separator (p : string) : bool :=
  match p with
  | EmptyString => false
  | String c p' => Ascii.eqb c "/" || has_separator p'
  end.

Fixpoint filename (p : path) : string :=
  match p with
  | EmptyString => EmptyString
  | String c p' =>
      if Ascii.eqb c "/" || has_separator p' then filename p' else p
  end.

(** The suffix of [s] that starts at its rightmost period. *)
Fixpoint from_last_dot (s : string) : option string :=
  match s with
  | EmptyString => None
  | String c s' =>
      match from_last_dot s' with
      | Some e => Some e
      | None => if Ascii.eqb c "." then Some s else None
      end
  end.

(** [path::extension]: from the rightmost period of the file name on; the
    names dot and dot-dot have none and a leading period does not start
    one. *)
Definition extension (p : path) : string :=
  let f := filename p in
  if String.eqb f "." || String.eqb f ".." then EmptyString
  else
    match f with
    | EmptyString => EmptyString
    | String _ f' =>
        match from_last_dot f' with
        | Some e => e
        | None => EmptyString
        end
    end.

Definition has_extension (p : path) : bool :=
  negb (String.eqb (extension p) EmptyString).

Inductive file_type : Type :=
| ft_none
| ft_not_found
| ft_regular
| ft_directory
| ft_symlink
| ft_block
| ft_character
| ft_fifo
| ft_socket
| ft_unknown.

Definition file_type_eqb (a b : file_type) : bool :=
  match a, b with
  | ft_none, ft_none
  | ft_not_found, ft_not_found
  | ft_regular, ft_regular
  | ft_directory, ft_directory
  | ft_symlink, ft_symlink
  | ft_block, ft_block
  | ft_character, ft_character
  | ft_fifo, ft_fifo
  | ft_socket, ft_socket
  | ft_unknown, ft_unknown => true
  | _, _ => false
  end.

(** [std::filesystem::perms] bit masks. *)
Definition perms_none : Z := 0.
Definition perms_owner_read : Z := 256.
Definition perms_group_read : Z := 32.
Definition perms_others_read : Z := 4.

Record file_status : Type := mkStatus {
  type : file_type;
  permissions : Z
}.

(** What constructing the [ifstream] yields: a good stream over the file's
    bytes, or a stream with its fail bit set and the [errno] the runtime
    left behind. *)
Inductive ifstream : Type :=
| Opened (content : list byte)
| OpenFailed (errno : Z).

(** What a call sees of its environment: the answer of a status query (a
    status of type [ft_none] stands for a query that failed), the stream
    that opening a path yields, and whether the allocator can serve a
    request of so many bytes. *)
Record FileSystem : Type := mkFS {
  status : path -> file_status;
  open : path -> ifstream;
  can_allocate : Z -> bool
}.

(** [status(p)], [exists(p)] and [is_regular_file(p)] throw
    [filesystem_error] when the query fails. *)
Definition query_fails (fs : FileSystem) (p : path) : bool :=
  file_type_eqb (type (status fs p)) ft_none.

(** [exists(p)] and [is_regular_file(p)] on a query that answered: the
    status-based tests [exists(s)] and [is_regular_file(s)]. *)
Definition exists_ (fs : FileSystem) (p : path) : bool :=
  let t := type (status fs p) in
  negb (file_type_eqb t ft_none) && negb (file_type_eqb t ft_not_found).

Definition is_regular_file (fs : FileSystem) (p : path) : bool :=
  file_type_eqb (type (status fs p)) ft_regular.

(** <cerrno> values of the two codes the function tests for (Linux). *)
Definition EBUSY : Z := 16.
Definition ETXTBSY : Z := 26.

Definition fail (s : ifstream) : bool :=
  match s with
  | Opened _ => false
  | OpenFailed _ => true
  end.

Definition errno_after (s : ifstream) : Z :=
  match s with
  | Opened _ => 0
  | OpenFailed e => e
  end.

(** [seekg(0, end)] then [tellg()]: the size of the file, or -1 on a
    stream that failed. *)
Definition tellg (s : ifstream) : Z :=
  match s with
  | Opened content => Z.of_nat (List.length content)
  | OpenFailed _ => -1
  end.

(** The contents of a value-initialised [vector<u8>(n)] after
    [seekg(0, beg)] and [read(.., n)]. *)
Definition read (s : ifstream) (n : Z) : list byte :=
  let got :=
    match s with
    | Opened content => firstn (Z.to_nat n) content
    | OpenFailed _ => []
    end in
  got ++ repeat x00 (Z.to_nat n - List.length got).

(** ** Control flow of the function body *)

Inductive step (A : Type) : Type :=
| Next (a : A)                      (* fall through to the next statement *)
| Return (r : ConvertResult_WAV)    (* [return r;] *)
| Throw                             (* a C++ exception leaves the statement *)
| Undefined (off len : Z)           (* read of [off, off+len) outside rawData *)
| OutOfFuel.                        (* the loop's iteration budget ran out *)

Arguments Next {A} a.
Arguments Return {A} r.
Arguments Throw {A}.
Arguments Undefined {A} off len.
Arguments OutOfFuel {A}.

Definition bind {A B : Type} (m : step A) (k : A -> step B) : step B :=
  match m with
  | Next a => k a
  | Return r => Return r
  | Throw => Throw
  | Undefined off len => Undefined off len
  | OutOfFuel => OutOfFuel
  end.

Declare Scope step_scope.
Delimit Scope step_scope with step.

Notation "x <- m ;; k" := (bind m (fun x => k))
  (at level 100, m at next level, right associativity) : step_scope.
Notation "m ;; k" := (bind m (fun _ => k))
  (at level 100, right associativity) : step_scope.

Open Scope step_scope.

(** [if (c) return r;] *)
Definition return_if (c : bool) (r : ConvertResult_WAV) : step unit :=
  if c then Return r else Next tt.

(** ** Accesses to the loaded buffer *)

Definition size (buf : list byte) : Z := Z.of_nat (List.length buf).

(** The [n] bytes at [buf.data() + off], when they all lie in the buffer. *)
Definition bytes_at (buf : list byte) (off n : Z) : option (list byte) :=
  if (0 <=? off) && (0 <=? n) && (off + n <=? size buf)
  then Some (firstn (Z.to_nat n) (skipn (Z.to_nat off) buf))
  else None.

Definition load (buf : list byte) (off n : Z) : step (list byte) :=
  match bytes_at buf off n with
  | Some bs => Next bs
  | None => Undefined off n
  end.

(** Byte-wise three-way comparison of two equally long strings. *)
Fixpoint compare_bytes (a b : list byte) : Z :=
  match a, b with
  | x :: a', y :: b' =>
      if (Byte.to_N x =? Byte.to_N y)%N then compare_bytes a' b'
      else if (Byte.to_N x <? Byte.to_N y)%N then -1 else 1
  | _, _ => 0
  end.

(** [memcmp(buf.data() + off, s, n)] *)
Definition memcmp (buf : list byte) (off : Z) (s : string) (n : Z) : step Z :=
  bs <- load buf off n ;;
  Next (compare_bytes bs (firstn (Z.to_nat n) (lit s))).

(** [memcpy(&x, buf.data() + off, n)] into a zero-initialised unsigned [x]:
    the value [x] holds afterwards. *)
Definition memcpy (buf : list byte) (off n : Z) : step Z :=
  bs <- load buf off n ;;
  Next (le_uint bs).

(** [v.assign(buf.begin() + first, buf.begin() + last)] *)
Definition assign (buf : list byte) (first last : Z) : step (list byte) :=
  if first <=? last then load buf first (last - first)
  else Undefined first (last - first).

(** [vector::max_size()] for a byte vector. *)
Definition max_size : Z := 2 ^ 63 - 1.

(** Allocating storage for [n] bytes ([vector<u8>(n)], [reserve(n)]) while
    a file of [present] bytes is decoded. A request above [max_size] throws
    [length_error]; one of no more than [present] bytes succeeds; any other
    succeeds or throws [bad_alloc] as the allocator decides. *)
Definition allocate (fs : FileSystem) (present n : Z) : step unit :=
  if n >? max_size then Throw
  else if (n <=? present) || can_allocate fs n then Next tt
  else Throw.

(** ** Convert_WAV *)

(** The loop that looks for the data chunk,
    [for (size_t i = ..; i + 8 < rawData.size(); ++i)], over the two
    variables it assigns, [(dataOffset, dataSize)]. *)
Fixpoint find_data (fuel : nat) (rawData : list byte) (i : Z)
    (vars : Z * Z) : step (Z * Z) :=
  match fuel with
  | O => OutOfFuel
  | S fuel' =>
      if to_size_t (i + 8) <? size rawData then
        c <- memcmp rawData i "data" 4 ;;
        if c =? 0 then
          dataSize <- memcpy rawData (i + 4) 4 ;;
          Next (to_size_t (i + 8), dataSize)
        else find_data fuel' rawData (to_size_t (i + 1)) vars
      else Next vars
  end.

(** Lines 315 to 350: the scan for the data chunk, the clamp of its end,
    the missing-chunk test and the filling of [pData], for the format
    values decoded before. *)
Definition payload_stage (fs : FileSystem) (rawData : list byte)
    (correctSampleRate correctChannels correctBPS : Z) : step PCMData_WAV :=
  vars <- find_data (List.length rawData) rawData EXPECTED_DATA_POS_START
            (0, 0) ;;
  let dataOffset := fst vars in
  let dataSize := snd vars in
  let dataEnd := Z.min (size rawData) (to_size_t (dataOffset + dataSize)) in
  return_if ((dataOffset =? 0) || (dataOffset >=? size rawData))
    RESULT_MISSING_DATA_CHUNK ;;
  allocate fs (size rawData) dataSize ;;
  pcm <- assign rawData dataOffset dataEnd ;;
  Next {| pcmData := pcm;
          sampleRate := correctSampleRate;
          channels := correctChannels;
          bitsPerSample := correctBPS |}.

(** Lines 290 to 313, PARSE FOUND DATA: the magic comparisons, the format
    fields and the allow-list checks, then the payload stage. *)
Definition parse (fs : FileSystem) (rawData : list byte)
    : step PCMData_WAV :=
  c <- memcmp rawData 0 "RIFF" 4 ;;
  return_if (negb (c =? 0)) RESULT_INVALID_RIFF_MAGIC ;;
  c <- memcmp rawData 8 "WAVE" 4 ;;
  return_if (negb (c =? 0)) RESULT_INVALID_WAVE_MAGIC ;;
  c <- memcmp rawData 12 "fmt " 4 ;;
  return_if (negb (c =? 0)) RESULT_INVALID_FMT_CHUNK ;;
  audioFormat <- memcpy rawData 20 2 ;;
  return_if (negb (audioFormat =? 1)) RESULT_INVALID_FORMAT_TYPE ;;
  channels <- memcpy rawData 22 2 ;;
  correctSampleRate <- memcpy rawData 24 4 ;;
  bitsPerSample <- memcpy rawData 34 2 ;;
  let correctChannels := to_u8 channels in
  let correctBPS := to_u8 bitsPerSample in
  return_if (negb (ContainsSampleRate correctSampleRate))
    RESULT_UNSUPPORTED_SAMPLE_RATE ;;
  return_if (negb (ContainsChannel correctChannels))
    RESULT_UNSUPPORTED_CHANNELS ;;
  return_if (negb (ContainsBPS correctBPS))
    RESULT_UNSUPPORTED_BITS_PER_SAMPLE ;;
  payload_stage fs rawData correctSampleRate correctChannels correctBPS.

(** TRY TO OPEN AND READ: the body of the [try] block. *)
Definition try_block (fs : FileSystem) (inFile : path) : step PCMData_WAV :=
  let in_ := open fs inFile in
  (if fail in_ && negb (errno_after in_ =? 0) then
     if (errno_after in_ =? EBUSY) || (errno_after in_ =? ETXTBSY)
     then Return RESULT_FILE_LOCKED
     else Return RESULT_UNKNOWN_READ_ERROR
   else Next tt) ;;
  let fileSize := to_size_t (tellg in_) in
  return_if (fileSize =? 0) RESULT_FILE_EMPTY ;;
  return_if (fileSize <=? EXPECTED_DATA_POS_START)
    RESULT_UNSUPPORTED_FILE_SIZE ;;
  allocate fs fileSize fileSize ;;
  let rawData := read in_ fileSize in
  parse fs rawData.

(** What a call does: it returns a result code and leaves a value in the
    output slot, or it reads [len] bytes at offset [off] outside rawData,
    which is undefined behaviour, or an exception leaves it and reaches the
    caller. [Diverges] stands for a scan that outruns the iteration budget
    of the model; [Convert_WAV_terminates] shows that no call does. *)
Inductive behaviour : Type :=
| Returns (r : ConvertResult_WAV) (outData : PCMData_WAV)
| OutOfBounds (off len : Z)
| Escapes
| Diverges.

(** How the [try] block ends: falling out of it assigns [pData] to the
    output slot and returns success; a [return] inside it and the
    [catch (...)] handler leave the slot alone. *)
Definition after_try (outData : PCMData_WAV) (s : step PCMData_WAV)
    : behaviour :=
  match s with
  | Next pData => Returns RESULT_SUCCESS pData
  | Return r => Returns r outData
  | Throw => Returns RESULT_UNKNOWN_READ_ERROR outData
  | Undefined off len => OutOfBounds off len
  | OutOfFuel => Diverges
  end.

(** The three status queries of the pre-read checks (lines 231, 232 and
    239) are outside the [try] block: against a path whose query fails the
    first of them throws and the exception leaves the function. *)
Definition Convert_WAV (fs : FileSystem) (inFile : path)
    (outData : PCMData_WAV) : behaviour :=
  if query_fails fs inFile then Escapes
  else if negb (exists_ fs inFile) then Returns RESULT_FILE_NOT_FOUND outData
  else if negb (is_regular_file fs inFile)
          || negb (has_extension inFile)
          || negb (String.eqb (extension inFile) ".wav")
  then Returns RESULT_INVALID_EXTENSION outData
  else
    let filePerms := permissions (status fs inFile) in
    let canRead :=
      negb (Z.land filePerms
              (Z.lor perms_owner_read
                 (Z.lor perms_group_read perms_others_read))
            =? perms_none) in
    if negb canRead then Returns RESULT_UNAUTHORIZED_READ outData
    else
      after_try outData (try_block fs inFile).

(** ** Building input files *)

Definition byte_of_Z (z : Z) : byte :=
  match Byte.of_N (Z.to_N (z mod 256)) with
  | Some b => b
  | None => x00
  end.

(** The [n] little-endian bytes of [z]. *)
Fixpoint le_bytes (n : nat) (z : Z) : list byte :=
  match n with
  | O => []
  | S n' => byte_of_Z z :: le_bytes n' (z / 256)
  end.

(** The canonical 44-byte header of a 16-bit stereo 44.1 kHz PCM file whose
    data chunk declares [N] bytes (layout table at the top of
    wav_to_pcm.hpp). *)
Definition wav_header (N : Z) : list byte :=
  lit "RIFF" ++ le_bytes 4 (36 + N) ++ lit "WAVE"
  ++ lit "fmt " ++ le_bytes 4 16
  ++ le_bytes 2 1 ++ le_bytes 2 2 ++ le_bytes 4 44100
  ++ le_bytes 4 176400 ++ le_bytes 2 4 ++ le_bytes 2 16
  ++ lit "data" ++ le_bytes 4 N.

Definition minimal_wav (payload : list byte) : list byte :=
  wav_header (size payload) ++ payload.

(** A filesystem that holds one regular file, mode 0644, on a machine
    whose allocator serves every request. *)
Definition single_file (name : path) (content : list byte) : FileSystem :=
  {| status p :=
       if String.eqb p name
       then {| type := ft_regular; permissions := 420 |}
       else {| type := ft_not_found; permissions := 65535 |};
     open p :=
       if String.eqb p name then Opened content else OpenFailed 2;
     can_allocate _ := true |}.

(** A filesystem in which every path is a directory, mode 0755. *)
Definition only_directories : FileSystem :=
  {| status _ := {| type := ft_directory; permissions := 493 |};
     open _ := OpenFailed 21;
     can_allocate _ := true |}.

(** The same files on a machine whose allocator serves requests of up to
    [limit] bytes. *)
Definition with_memory (limit : Z) (fs : FileSystem) : FileSystem :=
  {| status := status fs;
     open := open fs;
     can_allocate n := n <=? limit |}.

(** A 47-byte file: the canonical header with a declared data size of
    2^32 - 1, followed by three bytes. *)
Definition oversized_declaration : list byte :=
  wav_header 4294967295 ++ lit "xyz".

Definition empty_slot : PCMData_WAV :=
  {| pcmData := []; sampleRate := 0; bitsPerSample := 0; channels := 0 |}.

(** ** Vocabulary of the statements *)

(** [raw] is the content of the readable regular file [inFile], whose name
    ends in .wav and whose size a stream offset can hold. *)
Record loaded (fs : FileSystem) (inFile : path) (raw : list byte) : Prop := {
  loaded_regular : type (status fs inFile) = ft_regular;
  loaded_extension : extension inFile = ".wav";
  loaded_perms :
    Z.land (permissions (status fs inFile))
      (Z.lor perms_owner_read (Z.lor perms_group_read perms_others_read))
    <> perms_none;
  loaded_open : open fs inFile = Opened raw;
  loaded_size : size raw <= max_size
}.

(** The unsigned little-endian field of [n] bytes at [off]. *)
Definition uint_at (buf : list byte) (off n : Z) : option Z :=
  option_map le_uint (bytes_at buf off n).

(** [raw] starts with the RIFF, WAVE and fmt magics, its format code is PCM
    and its channel, sample-rate and bit-depth fields hold [ch], [sr] and
    [bps]. *)
Record pcm_header (raw : list byte) (ch sr bps : Z) : Prop := {
  header_riff : bytes_at raw 0 4 = Some (lit "RIFF");
  header_wave : bytes_at raw 8 4 = Some (lit "WAVE");
  header_fmt : bytes_at raw 12 4 = Some (lit "fmt ");
  header_format : uint_at raw 20 2 = Some 1;
  header_channels : uint_at raw 22 2 = Some ch;
  header_rate : uint_at raw 24 4 = Some sr;
  header_bps : uint_at raw 34 2 = Some bps
}.

(** The header passes the three allow-list checks as well. *)
Record valid_header (raw : list byte) (ch sr bps : Z) : Prop := {
  valid_pcm : pcm_header raw ch sr bps;
  valid_rate : ContainsSampleRate sr = true;
  valid_channels : ContainsChannel (to_u8 ch) = true;
  valid_bps : ContainsBPS (to_u8 bps) = true
}.

(** Position [i] is one the scan looks at. *)
Definition scanned (raw : list byte) (i : Z) : Prop :=
  EXPECTED_DATA_POS_START <= i /\ i + 8 < size raw.

Definition data_at (raw : list byte) (i : Z) : Prop :=
  bytes_at raw i 4 = Some (lit "data").

(** [i] is the first scanned position that holds the data literal. *)
Definition first_data (raw : list byte) (i : Z) : Prop :=
  scanned raw i /\ data_at raw i /\
  forall j, EXPECTED_DATA_POS_START <= j < i -> ~ data_at raw j.

(** The allowed Return codes of a step. *)
Definition returns_within {A : Type} (P : ConvertResult_WAV -> Prop)
    (s : step A) : Prop :=
  match s with
  | Return r => P r
  | _ => True
  end.

(** The bytes of [raw] from [first] up to, not including, [last]. *)
Definition range (raw : list byte) (first last : Z) : list byte :=
  firstn (Z.to_nat (last - first)) (skipn (Z.to_nat first) raw).

(** The step does not end in a read outside the buffer. *)
Definition in_bounds {A : Type} (s : step A) : Prop :=
  match s with
  | Undefined _ _ => False
  | _ => True
  end.

(** The step does not end in the model's own out-of-fuel outcome. *)
Definition has_fuel {A : Type} (s : step A) : Prop :=
  match s with
  | OutOfFuel => False
  | _ => True
  end.

(** Input files of the examples. *)
Definition header_only : list byte := lit "RIFF....WAVEfmt ".

Definition header_with (format ch sr bps : Z) (rest : list byte)
    : list byte :=
  lit "RIFF" ++ le_bytes 4 (36 + size rest) ++ lit "WAVE"
  ++ lit "fmt " ++ le_bytes 4 16
  ++ le_bytes 2 format ++ le_bytes 2 ch ++ le_bytes 4 sr
  ++ le_bytes 4 (sr * ch * (bps / 8)) ++ le_bytes 2 (ch * (bps / 8))
  ++ le_bytes 2 bps
  ++ rest.

(** [inFile] passes the pre-read checks: it is a regular file, its name
    ends in .wav and one of the three read bits is set. *)
Record readable (fs : FileSystem) (inFile : path) : Prop := {
  readable_regular : type (status fs inFile) = ft_regular;
  readable_extension : extension inFile = ".wav";
  readable_perms :
    Z.land (permissions (status fs inFile))
      (Z.lor perms_owner_read (Z.lor perms_group_read perms_others_read))
    <> perms_none
}.

(** The codes named by the [return] statements inside the [try] block. *)
Definition try_block_codes : list ConvertResult_WAV :=
  [RESULT_FILE_LOCKED; RESULT_UNKNOWN_READ_ERROR; RESULT_FILE_EMPTY;
   RESULT_UNSUPPORTED_FILE_SIZE; RESULT_INVALID_RIFF_MAGIC;
   RESULT_INVALID_WAVE_MAGIC; RESULT_INVALID_FMT_CHUNK;
   RESULT_INVALID_FORMAT_TYPE; RESULT_UNSUPPORTED_SAMPLE_RATE;
   RESULT_UNSUPPORTED_CHANNELS; RESULT_UNSUPPORTED_BITS_PER_SAMPLE;
   RESULT_MISSING_DATA_CHUNK].

(** ** core_utils.hpp: duplicates in containers

    The element type [T] comes with the equality that [equality_comparable]
    and [std::hash] stand for; an [unordered_set<T>] is the list of the
    elements inserted so far, an [unordered_map<T, size_t>] of counters the
    function from keys to counts that [operator[]] presents, absent keys
    counting 0. A [map] or [unordered_map] to iterate over is the list of
    its entries in iteration order. *)

Section Duplicates.

Context {K T : Type}.
Variable T_eqb : T -> T -> bool.

(** [seen.insert(x)]: the set afterwards and the [second] of the result. *)
Definition insert (seen : list T) (x : T) : list T * bool :=
  if existsb (T_eqb x) seen then (seen, false) else (x :: seen, true).

(** [for (const auto& x : v) if (!seen.insert(x).second) return true;]
    followed by [return false]. *)
Fixpoint ContainsDuplicates_loop (seen : list T) (v : list T) : bool :=
  match v with
  | [] => false
  | x :: v' =>
      let (seen', inserted) := insert seen x in
      if negb inserted then true else ContainsDuplicates_loop seen' v'
  end.

Definition ContainsDuplicates (v : list T) : bool :=
  if (List.length v <? 2)%nat then false
  else ContainsDuplicates_loop [] v.

(** The overloads for [map] and [unordered_map], which insert the mapped
    value of every entry. *)
Fixpoint ContainsDuplicates_map_loop (seen : list T) (m : list (K * T))
    : bool :=
  match m with
  | [] => false
  | (_, value) :: m' =>
      let (seen', inserted) := insert seen value in
      if negb inserted then true else ContainsDuplicates_map_loop seen' m'
  end.

Definition ContainsDuplicates_map (m : list (K * T)) : bool :=
  if (List.length m <? 2)%nat then false
  else ContainsDuplicates_map_loop [] m.

(** [++counts[x]] *)
Definition increment (counts : T -> Z) (x : T) : T -> Z :=
  fun y => if T_eqb x y then to_size_t (counts y + 1) else counts y.

(** [for (const auto& x : v) ++counts[x];] *)
Fixpoint count_all (counts : T -> Z) (v : list T) : T -> Z :=
  match v with
  | [] => counts
  | x :: v' => count_all (increment counts x) v'
  end.

(** The vector [v] holds after the call. *)
Definition RemoveDuplicates (v : list T) : list T :=
  if (List.length v <? 2)%nat then v
  else
    let counts := count_all (fun _ => 0) v in
    filter (fun x => counts x =? 1) v.

(** [for (const auto& [key, value] : m) ++counts[value];] *)
Fixpoint count_all_map (counts : T -> Z) (m : list (K * T)) : T -> Z :=
  match m with
  | [] => counts
  | (_, value) :: m' => count_all_map (increment counts value) m'
  end.

(** The loop that erases or steps over the entry under the iterator. *)
Fixpoint erase_loop (counts : T -> Z) (m : list (K * T)) : list (K * T) :=
  match m with
  | [] => []
  | (key, value) :: m' =>
      if counts value >? 1 then erase_loop counts m'
      else (key, value) :: erase_loop counts m'
  end.

(** The entries the map [m] holds after the call. *)
Definition RemoveDuplicates_map (m : list (K * T)) : list (K * T) :=
  if (List.length m <? 2)%nat then m
  else
    let counts := count_all_map (fun _ => 0) m in
    erase_loop counts m.

(** How often [x] occurs in [v]. *)
Definition occurrences (x : T) (v : list T) : nat :=
  List.length (filter (T_eqb x) v).

End Duplicates.

(** ** core_utils.hpp: ToVar and FromVar on integral handles

    An integral type is its signedness and its width in bits; [uintptr_t]
    and [uint64_t] are 64 bits wide. *)

Inductive integral : Type :=
| Unsigned (bits : Z)
| Signed (bits : Z).

(** The values of the type. *)
Definition in_range (I : integral) (z : Z) : Prop :=
  match I with
  | Unsigned w => 0 <= z < 2 ^ w
  | Signed w => - 2 ^ (w - 1) <= z < 2 ^ (w - 1)
  end.

(** [static_cast<I>(z)]: the value of the type congruent to [z] modulo
    2^bits. *)
Definition static_cast (I : integral) (z : Z) : Z :=
  match I with
  | Unsigned w => z mod 2 ^ w
  | Signed w => (z + 2 ^ (w - 1)) mod 2 ^ w - 2 ^ (w - 1)
  end.

Definition uintptr_t : integral := Unsigned 64.
Definition uint64_t : integral := Unsigned 64.

(** [ToVar<I>(h)] for an integral [I]. *)
Definition ToVar (I : integral) (h : Z) : Z := static_cast I h.

(** [FromVar(h)] for [h] of an integral type. *)
Definition FromVar (h : Z) : Z := static_cast uint64_t h.

(** * Properties *)

Section Integers.

Lemma to_size_t_small (z : Z) : 0 <= z < 2 ^ 64 -> to_size_t z = z.
Proof. intros H. unfold to_size_t. now apply Z.mod_small. Qed.

Lemma max_size_value : max_size = 9223372036854775807.
Proof. reflexivity. Qed.

Lemma to_N_inj (x y : byte) : Byte.to_N x = Byte.to_N y -> x = y.
Proof.
  intros H.
  assert (E : Some x = Some y)
    by (rewrite <- (Byte.of_to_N x), <- (Byte.of_to_N y); now rewrite H).
  now inversion E.
Qed.

Lemma to_N_range (b : byte) : 0 <= Z.of_N (Byte.to_N b) < 256.
Proof. pose proof (Byte.to_N_bounded b). lia. Qed.

Lemma le_uint_bound (bs : list byte) :
  0 <= le_uint bs < 256 ^ Z.of_nat (List.length bs).
Proof.
  induction bs as [|b bs IH].
  - simpl. lia.
  - cbn [le_uint List.length]. rewrite Nat2Z.inj_succ, Z.pow_succ_r by lia.
    pose proof (to_N_range b). lia.
Qed.

Lemma to_N_byte_of_Z (z : Z) : Z.of_N (Byte.to_N (byte_of_Z z)) = z mod 256.
Proof.
  unfold byte_of_Z.
  assert (R : 0 <= z mod 256 < 256) by (apply Z.mod_pos_bound; lia).
  destruct (Byte.of_N (Z.to_N (z mod 256))) as [b|] eqn:E.
  - apply Byte.to_of_N in E. rewrite E. lia.
  - apply Byte.of_N_None_iff in E. lia.
Qed.

Lemma le_uint_le_bytes (n : nat) (z : Z) :
  0 <= z < 256 ^ Z.of_nat n -> le_uint (le_bytes n z) = z.
Proof.
  revert z. induction n as [|n IH]; intros z Hz.
  - simpl in *. lia.
  - cbn [le_bytes le_uint]. rewrite to_N_byte_of_Z.
    rewrite Nat2Z.inj_succ, Z.pow_succ_r in Hz by lia.
    rewrite IH.
    + pose proof (Z.div_mod z 256). lia.
    + split.
      * apply Z.div_pos; lia.
      * apply Z.div_lt_upper_bound; lia.
Qed.

End Integers.

Section Buffer.

Variable buf : list byte.

Lemma size_nonneg : 0 <= size buf.
Proof. unfold size. lia. Qed.

Lemma bytes_at_Some (off n : Z) :
  0 <= off -> 0 <= n -> off + n <= size buf ->
  bytes_at buf off n
  = Some (firstn (Z.to_nat n) (skipn (Z.to_nat off) buf)).
Proof.
  intros H1 H2 H3. unfold bytes_at.
  destruct (0 <=? off) eqn:E1; [|lia].
  destruct (0 <=? n) eqn:E2; [|lia].
  destruct (off + n <=? size buf) eqn:E3; [|lia].
  reflexivity.
Qed.

Lemma bytes_at_inv (off n : Z) (bs : list byte) :
  bytes_at buf off n = Some bs ->
  0 <= off /\ 0 <= n /\ off + n <= size buf /\
  bs = firstn (Z.to_nat n) (skipn (Z.to_nat off) buf).
Proof.
  unfold bytes_at.
  destruct (0 <=? off) eqn:E1; [|discriminate].
  destruct (0 <=? n) eqn:E2; [|discriminate].
  destruct (off + n <=? size buf) eqn:E3; [|discriminate].
  cbn. intros [= <-]. repeat split; lia.
Qed.

Lemma bytes_at_length (off n : Z) (bs : list byte) :
  bytes_at buf off n = Some bs -> Z.of_nat (List.length bs) = n.
Proof.
  intros H. apply bytes_at_inv in H as (H1 & H2 & H3 & ->).
  unfold size in H3. rewrite length_firstn, length_skipn. lia.
Qed.

Lemma uint_at_Some (off n : Z) :
  0 <= off -> 0 <= n -> off + n <= size buf ->
  exists v, uint_at buf off n = Some v /\ 0 <= v < 256 ^ n.
Proof.
  intros H1 H2 H3. unfold uint_at.
  pose proof (bytes_at_Some off n H1 H2 H3) as E. rewrite E. cbn.
  eexists. split; [reflexivity|].
  pose proof (bytes_at_length _ _ _ E) as L.
  pose proof (le_uint_bound (firstn (Z.to_nat n) (skipn (Z.to_nat off) buf)))
    as B.
  now rewrite L in B.
Qed.

Lemma uint_at_inv (off n v : Z) :
  uint_at buf off n = Some v ->
  exists bs, bytes_at buf off n = Some bs /\ v = le_uint bs.
Proof.
  unfold uint_at. destruct (bytes_at buf off n) as [bs|]; [|discriminate].
  cbn. intros [= <-]. now exists bs.
Qed.

Lemma uint_at_range (off n v : Z) :
  uint_at buf off n = Some v -> 0 <= v < 256 ^ n /\ off + n <= size buf.
Proof.
  intros H. apply uint_at_inv in H as (bs & E & ->).
  pose proof (bytes_at_length _ _ _ E) as L.
  apply bytes_at_inv in E as (_ & _ & E & _).
  split; [|exact E]. pose proof (le_uint_bound bs) as B. now rewrite L in B.
Qed.

End Buffer.

Lemma compare_bytes_refl (a : list byte) : compare_bytes a a = 0.
Proof.
  induction a as [|x a IH]; [reflexivity|].
  cbn. now rewrite N.eqb_refl.
Qed.

Lemma compare_bytes_eq (a b : list byte) :
  List.length a = List.length b -> compare_bytes a b = 0 -> a = b.
Proof.
  revert b. induction a as [|x a IH]; intros [|y b] L H; try discriminate.
  - reflexivity.
  - cbn in H. destruct (Byte.to_N x =? Byte.to_N y)%N eqn:E.
    + apply N.eqb_eq, to_N_inj in E. subst y. f_equal. apply IH; auto.
    + destruct (Byte.to_N x <? Byte.to_N y)%N; discriminate.
Qed.

Section Reads.

Variable buf : list byte.

Lemma memcmp_at (off : Z) (s : string) (bs : list byte) :
  bytes_at buf off 4 = Some bs ->
  memcmp buf off s 4 = Next (compare_bytes bs (firstn 4 (lit s))).
Proof. intros H. unfold memcmp, load. now rewrite H. Qed.

Lemma memcmp_match (off : Z) (s : string) :
  List.length (lit s) = 4%nat ->
  bytes_at buf off 4 = Some (lit s) ->
  memcmp buf off s 4 = Next 0.
Proof.
  intros L H. rewrite (memcmp_at _ _ _ H).
  rewrite firstn_all2 by lia. now rewrite compare_bytes_refl.
Qed.

Lemma memcmp_mismatch (off : Z) (s : string) :
  List.length (lit s) = 4%nat ->
  0 <= off -> off + 4 <= size buf ->
  bytes_at buf off 4 <> Some (lit s) ->
  exists c, memcmp buf off s 4 = Next c /\ c <> 0.
Proof.
  intros L H1 H2 Hne.
  pose proof (bytes_at_Some buf off 4 H1 ltac:(lia) H2) as E.
  rewrite (memcmp_at _ _ _ E). eexists. split; [reflexivity|].
  intros C. apply Hne. rewrite E. f_equal.
  assert (F : firstn 4 (lit s) = lit s) by (apply firstn_all2; lia).
  rewrite F in C.
  apply compare_bytes_eq in C; [exact C|].
  apply bytes_at_length in E. lia.
Qed.

Lemma memcpy_at (off n v : Z) :
  uint_at buf off n = Some v -> memcpy buf off n = Next v.
Proof.
  intros H. apply uint_at_inv in H as (bs & E & ->).
  unfold memcpy, load. now rewrite E.
Qed.

End Reads.

Lemma allocate_present (fs : FileSystem) (present n : Z) :
  n <= present -> n <= max_size -> allocate fs present n = Next tt.
Proof.
  intros H1 H2. unfold allocate.
  destruct (Z.gtb_spec n max_size); [lia|].
  destruct (Z.leb_spec n present); [reflexivity|lia].
Qed.

Lemma allocate_cases (fs : FileSystem) (present n : Z) :
  allocate fs present n = Next tt \/ allocate fs present n = Throw.
Proof.
  unfold allocate. destruct (n >? max_size); [now right|].
  destruct ((n <=? present) || can_allocate fs n); [now left|now right].
Qed.

Lemma read_Opened (raw : list byte) : read (Opened raw) (size raw) = raw.
Proof.
  unfold read, size. rewrite Nat2Z.id, firstn_all, Nat.sub_diag.
  apply app_nil_r.
Qed.

Lemma Convert_WAV_loaded (fs : FileSystem) (inFile : path)
    (raw : list byte) (outData : PCMData_WAV) :
  loaded fs inFile raw ->
  Convert_WAV fs inFile outData =
    if size raw =? 0 then Returns RESULT_FILE_EMPTY outData
    else if size raw <=? EXPECTED_DATA_POS_START
         then Returns RESULT_UNSUPPORTED_FILE_SIZE outData
         else after_try outData (parse fs raw).
Proof.
  intros [Hreg Hext Hperm Hopen Hsize].
  pose proof (size_nonneg raw) as Hpos. rewrite max_size_value in Hsize.
  unfold Convert_WAV, query_fails, exists_, is_regular_file, has_extension.
  rewrite Hreg, Hext. cbn [file_type_eqb negb andb orb].
  change (negb (".wav" =? "")%string) with true.
  change (negb (".wav" =? ".wav")%string) with false.
  cbn [negb orb].
  destruct (Z.eqb_spec
              (Z.land (permissions (status fs inFile))
                 (Z.lor perms_owner_read
                    (Z.lor perms_group_read perms_others_read)))
              perms_none); [contradiction|].
  cbn [negb after_try]. unfold try_block. rewrite Hopen.
  cbn [fail andb bind tellg]. fold (size raw).
  rewrite to_size_t_small by lia.
  destruct (size raw =? 0) eqn:E0; [reflexivity|].
  cbn [return_if bind].
  destruct (size raw <=? EXPECTED_DATA_POS_START) eqn:E1; [reflexivity|].
  cbn [bind]. rewrite allocate_present by (rewrite ?max_size_value; lia).
  cbn [bind]. now rewrite read_Opened.
Qed.

Section Scan.

Variable raw : list byte.
Hypothesis raw_size : size raw <= max_size.

Lemma data_at_compare (i : Z) (bs : list byte) :
  bytes_at raw i 4 = Some bs ->
  (compare_bytes bs (firstn 4 (lit "data")) =? 0) = true <-> data_at raw i.
Proof.
  intros E. unfold data_at. rewrite E, Z.eqb_eq.
  change (firstn 4 (lit "data")) with (lit "data"). split.
  - intros C. f_equal. apply compare_bytes_eq; [|exact C].
    apply bytes_at_length in E. apply Nat2Z.inj. rewrite E. reflexivity.
  - intros [= ->]. apply compare_bytes_refl.
Qed.

(** The scan from [i] on either leaves the two variables alone, and then no
    position it looked at holds the literal, or it stops at the first
    position [k] that does, with the offset past the chunk header and the
    size field read there. It needs at most one unit of fuel per position
    and one for the final test. *)
Lemma find_data_result (vars : Z * Z) (fuel : nat) :
  forall i : Z,
  0 <= i <= size raw ->
  Z.max 0 (size raw - 8 - i) < Z.of_nat fuel ->
  (find_data fuel raw i vars = Next vars /\
   forall j, i <= j -> j + 8 < size raw -> ~ data_at raw j)
  \/
  (exists k d,
     i <= k /\ k + 8 < size raw /\ data_at raw k /\
     (forall j, i <= j < k -> ~ data_at raw j) /\
     uint_at raw (k + 4) 4 = Some d /\
     find_data fuel raw i vars = Next (k + 8, d)).
Proof.
  pose proof raw_size as Hmax. rewrite max_size_value in Hmax.
  induction fuel as [|fuel' IH]; intros i Hi Hfuel; [lia|].
  cbn [find_data].
  destruct (Z_lt_le_dec (i + 8) (size raw)) as [Hin|Hout].
  - rewrite to_size_t_small by lia.
    destruct (i + 8 <? size raw) eqn:E; [clear E|lia].
    pose proof (bytes_at_Some raw i 4 ltac:(lia) ltac:(lia) ltac:(lia))
      as Ebs.
    rewrite (memcmp_at _ _ _ _ Ebs). cbn [bind].
    pose proof (data_at_compare i _ Ebs) as Hcmp.
    destruct (compare_bytes _ _ =? 0) eqn:Ec.
    + right.
      destruct (uint_at_Some raw (i + 4) 4) as (d & Ed & _); try lia.
      exists i, d. rewrite (memcpy_at _ _ _ _ Ed). cbn [bind].
      repeat split; try lia; try assumption; try (now apply Hcmp).
    + assert (Hno : ~ data_at raw i)
        by (intros D; apply Hcmp in D; discriminate).
      rewrite to_size_t_small by lia.
      destruct (IH (i + 1)) as [[Ef Hall]|(k & d & H1 & H2 & H3 & H4 & H5 & Ef)];
        try lia.
      * left. split; [exact Ef|].
        intros j Hj Hj8. destruct (Z.eq_dec j i) as [->|]; [exact Hno|].
        apply Hall; lia.
      * right. exists k, d. repeat split; try lia; try assumption.
        intros j Hj. destruct (Z.eq_dec j i) as [->|]; [exact Hno|].
        apply H4; lia.
  - left.
    assert (Hfalse : (to_size_t (i + 8) <? size raw) = false).
    { apply Z.ltb_ge. rewrite to_size_t_small; lia. }
    rewrite Hfalse. split; [reflexivity|]. intros j Hj Hj8. lia.
Qed.

(** The scan of [parse], from [EXPECTED_DATA_POS_START] with the length of
    the buffer as fuel. *)
Lemma scan_result :
  EXPECTED_DATA_POS_START < size raw ->
  (find_data (List.length raw) raw EXPECTED_DATA_POS_START (0, 0)
   = Next (0, 0) /\
   forall j, scanned raw j -> ~ data_at raw j)
  \/
  (exists k d,
     first_data raw k /\ uint_at raw (k + 4) 4 = Some d /\
     find_data (List.length raw) raw EXPECTED_DATA_POS_START (0, 0)
     = Next (k + 8, d)).
Proof.
  intros Hbig. unfold EXPECTED_DATA_POS_START in *.
  destruct (find_data_result (0, 0) (List.length raw) 12)
    as [[Ef Hall]|(k & d & H1 & H2 & H3 & H4 & H5 & Ef)].
  - lia.
  - fold (size raw). lia.
  - left. split; [exact Ef|]. intros j [Hj Hj8]. now apply Hall.
  - right. exists k, d. repeat split; try assumption.
Qed.

Lemma first_data_unique (i k : Z) :
  first_data raw i -> first_data raw k -> i = k.
Proof.
  intros ([Hi _] & Di & Fi) ([Hk _] & Dk & Fk).
  destruct (Z.lt_trichotomy i k) as [L|[E|G]]; [|exact E|].
  - exfalso. apply (Fk i); [lia|exact Di].
  - exfalso. apply (Fi k); [lia|exact Dk].
Qed.

End Scan.

Section Parse.

Variable fs : FileSystem.
Variable raw : list byte.
Hypothesis raw_size : size raw <= max_size.

Lemma parse_pcm_header (ch sr bps : Z) :
  pcm_header raw ch sr bps ->
  parse fs raw =
    (return_if (negb (ContainsSampleRate sr))
       RESULT_UNSUPPORTED_SAMPLE_RATE ;;
     return_if (negb (ContainsChannel (to_u8 ch)))
       RESULT_UNSUPPORTED_CHANNELS ;;
     return_if (negb (ContainsBPS (to_u8 bps)))
       RESULT_UNSUPPORTED_BITS_PER_SAMPLE ;;
     payload_stage fs raw sr (to_u8 ch) (to_u8 bps)).
Proof.
  intros [Hriff Hwave Hfmt Hformat Hch Hsr Hbps]. unfold parse.
  rewrite (memcmp_match _ 0 "RIFF" eq_refl Hriff). cbn [bind Z.eqb negb return_if].
  rewrite (memcmp_match _ 8 "WAVE" eq_refl Hwave). cbn [bind Z.eqb negb return_if].
  rewrite (memcmp_match _ 12 "fmt " eq_refl Hfmt). cbn [bind Z.eqb negb return_if].
  rewrite (memcpy_at _ _ _ _ Hformat). cbn [bind Z.eqb Pos.eqb negb return_if].
  rewrite (memcpy_at _ _ _ _ Hch), (memcpy_at _ _ _ _ Hsr),
    (memcpy_at _ _ _ _ Hbps).
  reflexivity.
Qed.

Lemma parse_valid_header (ch sr bps : Z) :
  valid_header raw ch sr bps ->
  parse fs raw = payload_stage fs raw sr (to_u8 ch) (to_u8 bps).
Proof.
  intros [Hpcm Hsr Hch Hbps]. rewrite (parse_pcm_header _ _ _ Hpcm).
  now rewrite Hsr, Hch, Hbps.
Qed.

Lemma pcm_header_size (ch sr bps : Z) :
  pcm_header raw ch sr bps -> 36 <= size raw.
Proof. intros H. apply header_bps, uint_at_range in H. lia. Qed.

(** The stage ends in missing-data-chunk when no scanned position holds the
    literal; otherwise it reserves the declared size and, unless that
    throws, hands out the bytes from the offset past the first match up to
    the clamped end. *)
Lemma payload_stage_result (sr ch bps : Z) :
  EXPECTED_DATA_POS_START < size raw ->
  ((forall j, scanned raw j -> ~ data_at raw j) /\
   payload_stage fs raw sr ch bps = Return RESULT_MISSING_DATA_CHUNK)
  \/
  (exists k d,
     first_data raw k /\ uint_at raw (k + 4) 4 = Some d /\
     payload_stage fs raw sr ch bps =
       (allocate fs (size raw) d ;;
        Next {| pcmData :=
                  range raw (k + 8) (Z.min (size raw) (k + 8 + d));
                sampleRate := sr;
                bitsPerSample := bps;
                channels := ch |})).
Proof.
  intros Hbig. pose proof raw_size as Hmax. rewrite max_size_value in Hmax.
  unfold payload_stage.
  destruct (scan_result raw raw_size Hbig)
    as [[Ef Hall]|(k & d & Hfirst & Hd & Ef)]; rewrite Ef; cbn [bind fst snd].
  - left. split; [exact Hall|]. reflexivity.
  - right. exists k, d. split; [exact Hfirst|]. split; [exact Hd|].
    destruct Hfirst as ([Hk Hk8] & _). unfold EXPECTED_DATA_POS_START in Hk.
    apply uint_at_range in Hd as [Hd _]. change (256 ^ 4) with 4294967296 in Hd.
    destruct (k + 8 =? 0) eqn:E0; [lia|].
    destruct (k + 8 >=? size raw) eqn:E1; [lia|].
    cbn [orb return_if bind].
    destruct (allocate_cases fs (size raw) d) as [-> | ->]; cbn [bind];
      [|reflexivity].
    rewrite to_size_t_small by lia.
    unfold assign.
    destruct (k + 8 <=? Z.min (size raw) (k + 8 + d)) eqn:E3; [|lia].
    unfold load. rewrite bytes_at_Some by lia. reflexivity.
Qed.

End Parse.

Lemma range_length (raw : list byte) (first last : Z) :
  0 <= first <= last -> last <= size raw ->
  Z.of_nat (List.length (range raw first last)) = last - first.
Proof.
  intros H1 H2. unfold range, size in *.
  rewrite length_firstn, length_skipn. lia.
Qed.

Lemma range_app_tail (hdr tl : list byte) :
  range (hdr ++ tl) (size hdr) (size hdr + size tl) = tl.
Proof.
  unfold range, size.
  replace (Z.to_nat (Z.of_nat (List.length hdr) + Z.of_nat (List.length tl)
                     - Z.of_nat (List.length hdr)))
    with (List.length tl) by lia.
  rewrite Nat2Z.id, skipn_app, skipn_all, Nat.sub_diag. cbn.
  apply firstn_all.
Qed.

Lemma bytes_at_app (hdr tl : list byte) (off n : Z) :
  off + n <= size hdr ->
  bytes_at (hdr ++ tl) off n = bytes_at hdr off n.
Proof.
  intros H. unfold bytes_at, size in *. rewrite length_app.
  destruct (0 <=? off) eqn:E1; [|reflexivity].
  destruct (0 <=? n) eqn:E2; [|reflexivity].
  destruct (Z.leb_spec (off + n) (Z.of_nat (List.length hdr))); [|lia].
  destruct (Z.leb_spec (off + n)
              (Z.of_nat (List.length hdr + List.length tl))); [|lia].
  apply Z.leb_le in E1, E2.
  cbn. f_equal. rewrite skipn_app, firstn_app.
  replace (Z.to_nat off - List.length hdr)%nat with 0%nat by lia.
  replace (Z.to_nat n - List.length (skipn (Z.to_nat off) hdr))%nat
    with 0%nat by (rewrite length_skipn; lia).
  cbn. apply app_nil_r.
Qed.

Lemma Convert_WAV_valid (fs : FileSystem) (inFile : path) (raw : list byte)
    (outData : PCMData_WAV) (ch sr bps : Z) :
  loaded fs inFile raw ->
  valid_header raw ch sr bps ->
  Convert_WAV fs inFile outData
  = after_try outData (payload_stage fs raw sr (to_u8 ch) (to_u8 bps)).
Proof.
  intros Hl Hv. rewrite (Convert_WAV_loaded _ _ _ _ Hl).
  pose proof (pcm_header_size _ _ _ _ (valid_pcm _ _ _ _ Hv)) as Hsz.
  unfold EXPECTED_DATA_POS_START.
  destruct (size raw =? 0) eqn:E0; [lia|].
  destruct (size raw <=? 12) eqn:E1; [lia|].
  now rewrite (parse_valid_header fs _ _ _ _ Hv).
Qed.

Section Outcomes.

Context {A B : Type}.

Lemma bind_returns_within (P : ConvertResult_WAV -> Prop)
    (m : step A) (k : A -> step B) :
  returns_within P m -> (forall a, returns_within P (k a)) ->
  returns_within P (bind m k).
Proof. destruct m; cbn; auto. Qed.

Lemma bind_has_fuel (m : step A) (k : A -> step B) :
  has_fuel m -> (forall a, m = Next a -> has_fuel (k a)) ->
  has_fuel (bind m k).
Proof. destruct m; cbn; auto. Qed.

End Outcomes.

Lemma return_if_within (P : ConvertResult_WAV -> Prop) (c : bool)
    (r : ConvertResult_WAV) :
  P r -> returns_within P (return_if c r).
Proof. destruct c; cbn; auto. Qed.

Lemma load_no_return (P : ConvertResult_WAV -> Prop) (buf : list byte)
    (off n : Z) :
  returns_within P (load buf off n).
Proof. unfold load. now destruct (bytes_at buf off n). Qed.

Lemma memcmp_no_return (P : ConvertResult_WAV -> Prop) (buf : list byte)
    (off : Z) (s : string) (n : Z) :
  returns_within P (memcmp buf off s n).
Proof.
  unfold memcmp. apply bind_returns_within; [apply load_no_return|].
  intros; exact I.
Qed.

Lemma memcpy_no_return (P : ConvertResult_WAV -> Prop) (buf : list byte)
    (off n : Z) :
  returns_within P (memcpy buf off n).
Proof.
  unfold memcpy. apply bind_returns_within; [apply load_no_return|].
  intros; exact I.
Qed.

Lemma allocate_no_return (P : ConvertResult_WAV -> Prop) (fs : FileSystem)
    (present n : Z) :
  returns_within P (allocate fs present n).
Proof. now destruct (allocate_cases fs present n) as [-> | ->]. Qed.

Lemma assign_no_return (P : ConvertResult_WAV -> Prop) (buf : list byte)
    (first last : Z) :
  returns_within P (assign buf first last).
Proof.
  unfold assign. destruct (first <=? last); [apply load_no_return|exact I].
Qed.

Lemma find_data_no_return (P : ConvertResult_WAV -> Prop) (raw : list byte)
    (vars : Z * Z) (fuel : nat) :
  forall i, returns_within P (find_data fuel raw i vars).
Proof.
  induction fuel as [|fuel' IH]; intros i; cbn [find_data]; [exact I|].
  destruct (to_size_t (i + 8) <? size raw); [|exact I].
  apply bind_returns_within; [apply memcmp_no_return|].
  intros c. destruct (c =? 0); [|apply IH].
  apply bind_returns_within; [apply memcpy_no_return|]. intros; exact I.
Qed.

Create HintDb outcomes.

#[local] Hint Resolve return_if_within memcmp_no_return memcpy_no_return
  allocate_no_return assign_no_return find_data_no_return : outcomes.

(** [parse] hands back no other code than the six of its own [return]
    statements and missing-data-chunk. *)
Lemma parse_never_wav_format (fs : FileSystem) (raw : list byte) :
  returns_within (fun r => r <> RESULT_UNSUPPORTED_WAV_FORMAT)
    (parse fs raw).
Proof.
  unfold parse.
  repeat (apply bind_returns_within;
          [auto with outcomes; apply return_if_within; discriminate
          |intros ?]).
  exact I.
Qed.

Lemma try_block_never_wav_format (fs : FileSystem) (inFile : path) :
  returns_within (fun r => r <> RESULT_UNSUPPORTED_WAV_FORMAT)
    (try_block fs inFile).
Proof.
  unfold try_block.
  apply bind_returns_within.
  { destruct (fail _ && _); [|exact I].
    destruct (_ || _); cbn; discriminate. }
  intros _.
  do 3 (apply bind_returns_within;
        [auto with outcomes; apply return_if_within; discriminate
        |intros _]).
  apply parse_never_wav_format.
Qed.

Section Termination.

Lemma load_has_fuel (buf : list byte) (off n : Z) :
  has_fuel (load buf off n).
Proof. unfold load. now destruct (bytes_at buf off n). Qed.

Lemma memcmp_has_fuel (buf : list byte) (off : Z) (s : string) (n : Z) :
  has_fuel (memcmp buf off s n).
Proof.
  unfold memcmp. apply bind_has_fuel; [apply load_has_fuel|].
  intros; exact I.
Qed.

Lemma memcpy_has_fuel (buf : list byte) (off n : Z) :
  has_fuel (memcpy buf off n).
Proof.
  unfold memcpy. apply bind_has_fuel; [apply load_has_fuel|].
  intros; exact I.
Qed.

Lemma return_if_has_fuel (c : bool) (r : ConvertResult_WAV) :
  has_fuel (return_if c r).
Proof. now destruct c. Qed.

Lemma allocate_has_fuel (fs : FileSystem) (present n : Z) :
  has_fuel (allocate fs present n).
Proof. now destruct (allocate_cases fs present n) as [-> | ->]. Qed.

Lemma assign_has_fuel (buf : list byte) (first last : Z) :
  has_fuel (assign buf first last).
Proof.
  unfold assign. destruct (first <=? last); [apply load_has_fuel|exact I].
Qed.

Lemma scan_has_fuel (raw : list byte) :
  size raw <= max_size -> EXPECTED_DATA_POS_START < size raw ->
  has_fuel (find_data (List.length raw) raw EXPECTED_DATA_POS_START (0, 0)).
Proof.
  intros H1 H2.
  destruct (scan_result raw H1 H2) as [[E _]|(k & d & _ & _ & E)];
    now rewrite E.
Qed.

#[local] Hint Resolve memcmp_has_fuel memcpy_has_fuel return_if_has_fuel
  allocate_has_fuel assign_has_fuel scan_has_fuel : outcomes.

Lemma parse_has_fuel (fs : FileSystem) (raw : list byte) :
  size raw <= max_size -> EXPECTED_DATA_POS_START < size raw ->
  has_fuel (parse fs raw).
Proof.
  intros H1 H2. unfold parse.
  repeat (apply bind_has_fuel; [auto with outcomes|intros ? _]).
  exact I.
Qed.

Lemma read_size (s : ifstream) (n : Z) : 0 <= n -> size (read s n) = n.
Proof.
  intros H. unfold read, size. rewrite length_app, repeat_length.
  destruct s as [content|e]; cbn [List.length]; [|lia].
  rewrite length_firstn. lia.
Qed.

Lemma try_block_has_fuel (fs : FileSystem) (inFile : path) :
  has_fuel (try_block fs inFile).
Proof.
  unfold try_block.
  apply bind_has_fuel.
  { destruct (fail _ && _); [|exact I]. now destruct (_ || _). }
  intros _ _.
  set (fileSize := to_size_t (tellg (open fs inFile))).
  assert (Hpos : 0 <= fileSize)
    by (apply Z.mod_pos_bound; reflexivity).
  apply bind_has_fuel; [apply return_if_has_fuel|]. intros _ _.
  apply bind_has_fuel; [apply return_if_has_fuel|]. intros ? Hbig.
  apply bind_has_fuel; [apply allocate_has_fuel|]. intros ? Halloc.
  unfold return_if in Hbig. unfold allocate in Halloc.
  destruct (Z.leb_spec fileSize EXPECTED_DATA_POS_START); [discriminate|].
  destruct (Z.gtb_spec fileSize max_size); [discriminate|].
  apply parse_has_fuel; rewrite read_size; lia.
Qed.

(** The iteration budget the model gives the scan always suffices: every
    call ends with a result or in an out-of-bounds read. *)
Lemma Convert_WAV_terminates (fs : FileSystem) (inFile : path)
    (outData : PCMData_WAV) :
  Convert_WAV fs inFile outData <> Diverges.
Proof.
  unfold Convert_WAV.
  destruct (query_fails fs inFile); [discriminate|].
  destruct (negb (exists_ fs inFile)); [discriminate|].
  destruct (_ || _ || _); [discriminate|].
  destruct (negb (negb _)); [discriminate|].
  pose proof (try_block_has_fuel fs inFile) as H.
  destruct (try_block fs inFile); try discriminate. destruct H.
Qed.

End Termination.

Section Safety.

Variable fs : FileSystem.
Variable raw : list byte.
Hypothesis raw_size : size raw <= max_size.

Lemma bind_in_bounds {A B : Type} (m : step A) (k : A -> step B) :
  in_bounds m -> (forall a, in_bounds (k a)) -> in_bounds (bind m k).
Proof. destruct m; cbn; auto. Qed.

Lemma load_in_bounds (off n : Z) :
  0 <= off -> 0 <= n -> off + n <= size raw -> in_bounds (load raw off n).
Proof. intros H1 H2 H3. unfold load. now rewrite bytes_at_Some. Qed.

Lemma memcmp_in_bounds (off : Z) (s : string) (n : Z) :
  0 <= off -> 0 <= n -> off + n <= size raw ->
  in_bounds (memcmp raw off s n).
Proof.
  intros H1 H2 H3. unfold memcmp.
  apply bind_in_bounds; [now apply load_in_bounds|]. intros; exact I.
Qed.

Lemma memcpy_in_bounds (off n : Z) :
  0 <= off -> 0 <= n -> off + n <= size raw -> in_bounds (memcpy raw off n).
Proof.
  intros H1 H2 H3. unfold memcpy.
  apply bind_in_bounds; [now apply load_in_bounds|]. intros; exact I.
Qed.

Lemma return_if_in_bounds (c : bool) (r : ConvertResult_WAV) :
  in_bounds (return_if c r).
Proof. now destruct c. Qed.

Lemma payload_stage_in_bounds (sr ch bps : Z) :
  EXPECTED_DATA_POS_START < size raw ->
  in_bounds (payload_stage fs raw sr ch bps).
Proof.
  intros Hbig.
  destruct (payload_stage_result fs raw raw_size sr ch bps Hbig)
    as [[_ E]|(k & d & _ & _ & E)]; rewrite E; [exact I|].
  now destruct (allocate_cases fs (size raw) d) as [-> | ->].
Qed.

(** With 36 bytes or more in the buffer, every read of [parse], those of
    the scan and of the final copy included, lies inside it. *)
Lemma parse_in_bounds : 36 <= size raw -> in_bounds (parse fs raw).
Proof.
  intros Hsz. unfold parse.
  repeat (apply bind_in_bounds;
          [first [apply return_if_in_bounds
                 |apply memcmp_in_bounds; lia
                 |apply memcpy_in_bounds; lia]
          |intros ?]).
  apply payload_stage_in_bounds. unfold EXPECTED_DATA_POS_START. lia.
Qed.

End Safety.

Lemma Convert_WAV_in_bounds (fs : FileSystem) (inFile : path)
    (raw : list byte) (outData : PCMData_WAV) :
  loaded fs inFile raw ->
  36 <= size raw ->
  forall off len, Convert_WAV fs inFile outData <> OutOfBounds off len.
Proof.
  intros Hl Hsz off len. rewrite (Convert_WAV_loaded _ _ _ _ Hl).
  unfold EXPECTED_DATA_POS_START.
  destruct (Z.eqb_spec (size raw) 0); [lia|].
  destruct (Z.leb_spec (size raw) 12); [lia|].
  pose proof (parse_in_bounds fs raw (loaded_size _ _ _ Hl) Hsz) as Hin.
  destruct (parse fs raw); try discriminate. destruct Hin.
Qed.

Section Decoding.

Variables (fs : FileSystem) (inFile : path) (raw : list byte).
Variable outData : PCMData_WAV.
Hypothesis Hloaded : loaded fs inFile raw.

(** With a valid header and a first marker at [k], what is left of the call
    is the reserve of the declared size. *)
Lemma Convert_WAV_reserve (ch sr bps k d : Z) :
  valid_header raw ch sr bps ->
  first_data raw k ->
  uint_at raw (k + 4) 4 = Some d ->
  Convert_WAV fs inFile outData =
    after_try outData
      (allocate fs (size raw) d ;;
       Next {| pcmData := range raw (k + 8) (Z.min (size raw) (k + 8 + d));
               sampleRate := sr;
               bitsPerSample := to_u8 bps;
               channels := to_u8 ch |}).
Proof.
  intros Hv Hk Hd. rewrite (Convert_WAV_valid _ _ _ _ _ _ _ Hloaded Hv).
  pose proof (pcm_header_size _ _ _ _ (valid_pcm _ _ _ _ Hv)) as Hsz.
  destruct (payload_stage_result fs raw (loaded_size _ _ _ Hloaded)
              sr (to_u8 ch) (to_u8 bps))
    as [[Hall _]|(k' & d' & Hk' & Hd' & E)].
  - unfold EXPECTED_DATA_POS_START. lia.
  - destruct Hk as (Hs & Hdata & _). now destruct (Hall k Hs).
  - rewrite E.
    pose proof (first_data_unique _ _ _ Hk Hk') as <-.
    rewrite Hd in Hd'. now injection Hd' as <-.
Qed.

Lemma Convert_WAV_found (ch sr bps k d : Z) :
  valid_header raw ch sr bps ->
  first_data raw k ->
  uint_at raw (k + 4) 4 = Some d ->
  allocate fs (size raw) d = Next tt ->
  Convert_WAV fs inFile outData =
    Returns RESULT_SUCCESS
      {| pcmData := range raw (k + 8) (Z.min (size raw) (k + 8 + d));
         sampleRate := sr;
         bitsPerSample := to_u8 bps;
         channels := to_u8 ch |}.
Proof.
  intros Hv Hk Hd Ha. rewrite (Convert_WAV_reserve _ _ _ _ _ Hv Hk Hd).
  now rewrite Ha.
Qed.

(** When the reserve of the declared size throws, the handler of the [try]
    block answers. *)
Lemma Convert_WAV_reserve_throws (ch sr bps k d : Z) :
  valid_header raw ch sr bps ->
  first_data raw k ->
  uint_at raw (k + 4) 4 = Some d ->
  allocate fs (size raw) d = Throw ->
  Convert_WAV fs inFile outData = Returns RESULT_UNKNOWN_READ_ERROR outData.
Proof.
  intros Hv Hk Hd Ha. rewrite (Convert_WAV_reserve _ _ _ _ _ Hv Hk Hd).
  now rewrite Ha.
Qed.

Lemma Convert_WAV_not_found (ch sr bps : Z) :
  valid_header raw ch sr bps ->
  (forall j, scanned raw j -> ~ data_at raw j) ->
  Convert_WAV fs inFile outData = Returns RESULT_MISSING_DATA_CHUNK outData.
Proof.
  intros Hv Hnone. rewrite (Convert_WAV_valid _ _ _ _ _ _ _ Hloaded Hv).
  pose proof (pcm_header_size _ _ _ _ (valid_pcm _ _ _ _ Hv)) as Hsz.
  destruct (payload_stage_result fs raw (loaded_size _ _ _ Hloaded)
              sr (to_u8 ch) (to_u8 bps))
    as [[_ E]|(k & d & (Hs & Hdata & _) & _ & _)].
  - unfold EXPECTED_DATA_POS_START. lia.
  - now rewrite E.
  - now destruct (Hnone k Hs).
Qed.

End Decoding.

Lemma single_file_loaded (name : path) (raw : list byte) :
  extension name = ".wav" -> size raw <= max_size ->
  loaded (single_file name raw) name raw.
Proof.
  intros Hext Hsize.
  split; cbn; rewrite ?String.eqb_refl; cbn; auto; discriminate.
Qed.

Lemma forall_range (P : Z -> Prop) (lo : Z) (n : nat) :
  Forall P (map (fun k => lo + Z.of_nat k) (seq 0 n)) ->
  forall j, lo <= j < lo + Z.of_nat n -> P j.
Proof.
  intros H j Hj. rewrite Forall_forall in H. apply H.
  apply in_map_iff. exists (Z.to_nat (j - lo)). split; [lia|].
  apply in_seq. lia.
Qed.

Lemma wav_header_size (N : Z) : size (wav_header N) = 44.
Proof. reflexivity. Qed.

Lemma minimal_wav_size (payload : list byte) :
  size (minimal_wav payload) = 44 + size payload.
Proof.
  unfold minimal_wav, size at 1. rewrite length_app, Nat2Z.inj_add.
  fold (size (wav_header (size payload))). now rewrite wav_header_size.
Qed.

Ltac in_header :=
  unfold minimal_wav;
  rewrite bytes_at_app by (rewrite wav_header_size; cbn; lia).

Lemma minimal_wav_valid (payload : list byte) :
  valid_header (minimal_wav payload) 2 44100 16.
Proof.
  split; [split|..]; unfold uint_at; try in_header; reflexivity.
Qed.

Lemma minimal_wav_first_data (payload : list byte) :
  1 <= size payload -> first_data (minimal_wav payload) 36.
Proof.
  intros Hn. unfold first_data, scanned, EXPECTED_DATA_POS_START.
  rewrite minimal_wav_size. repeat split; try lia.
  - unfold data_at. in_header. reflexivity.
  - apply (forall_range _ 12 24). cbn [map seq].
    repeat constructor; unfold data_at; in_header; vm_compute; discriminate.
Qed.

Lemma minimal_wav_declared (payload : list byte) :
  size payload < 2 ^ 32 ->
  uint_at (minimal_wav payload) 40 4 = Some (size payload).
Proof.
  intros Hn. unfold uint_at. in_header.
  change (bytes_at (wav_header (size payload)) 40 4)
    with (Some (le_bytes 4 (size payload))).
  cbn [option_map]. f_equal. apply le_uint_le_bytes.
  pose proof (size_nonneg payload). change (256 ^ Z.of_nat 4) with (2 ^ 32).
  lia.
Qed.

(** * The decoder's contract *)

(** C1, as stated, fails for an empty payload: the scan stops before a
    marker whose chunk header ends at the end of the buffer, so the
    canonical 44-byte file with a declared size of 0 is answered with
    missing-data-chunk. *)
Lemma minimal_wav_empty_payload_missing_chunk :
  loaded (single_file "/a.wav" (minimal_wav [])) "/a.wav" (minimal_wav [])
  /\ Convert_WAV (single_file "/a.wav" (minimal_wav [])) "/a.wav" empty_slot
     = Returns RESULT_MISSING_DATA_CHUNK empty_slot.
Proof.
  split; [|reflexivity].
  apply single_file_loaded; [reflexivity|vm_compute; discriminate].
Qed.

(** C1 (amended): for the canonical 44-byte PCM header (RIFF, WAVE, fmt,
    format 1, 2 channels, 44100 Hz, 16 bits, data marker at offset 36 with
    declared size N) followed by N payload bytes, with N at least 1 and
    below 2^32, Convert_WAV returns success and the output slot holds
    exactly the payload with sample rate 44100, 16 bits per sample and 2
    channels. *)
Theorem minimal_wav_decodes (fs : FileSystem) (inFile : path)
    (payload : list byte) (outData : PCMData_WAV) :
  loaded fs inFile (minimal_wav payload) ->
  1 <= size payload < 2 ^ 32 ->
  Convert_WAV fs inFile outData =
    Returns RESULT_SUCCESS
      {| pcmData := payload;
         sampleRate := 44100;
         bitsPerSample := 16;
         channels := 2 |}.
Proof.
  intros Hl [Hlo Hhi].
  assert (Ha : allocate fs (size (minimal_wav payload)) (size payload)
               = Next tt).
  { apply allocate_present; rewrite ?minimal_wav_size, ?max_size_value;
      lia. }
  rewrite (Convert_WAV_found _ _ _ outData Hl 2 44100 16 36 (size payload)
             (minimal_wav_valid payload)
             (minimal_wav_first_data payload Hlo)
             (minimal_wav_declared payload Hhi) Ha).
  do 2 f_equal. rewrite minimal_wav_size.
  replace (Z.min (44 + size payload) (36 + 8 + size payload))
    with (size (wav_header (size payload)) + size payload)
    by (rewrite wav_header_size; lia).
  change (36 + 8) with (size (wav_header (size payload))).
  apply range_app_tail.
Qed.

Lemma minimal_wav_decodes_witness :
  Convert_WAV (single_file "/a.wav" (minimal_wav (lit "PCM!"))) "/a.wav"
    empty_slot
  = Returns RESULT_SUCCESS
      {| pcmData := lit "PCM!";
         sampleRate := 44100;
         bitsPerSample := 16;
         channels := 2 |}.
Proof.
  apply (minimal_wav_decodes (single_file "/a.wav" (minimal_wav (lit "PCM!")))
           "/a.wav" (lit "PCM!") empty_slot).
  - apply single_file_loaded; [reflexivity|vm_compute; discriminate].
  - vm_compute. split; [discriminate|reflexivity].
Defined.




(** C3: a readable .wav file shorter than 13 bytes is answered with
    file-empty when it has no bytes and unsupported-file-size otherwise;
    the call returns that result, it does not end in a read outside the
    loaded buffer. *)
Theorem short_file_rejected (fs : FileSystem) (inFile : path)
    (raw : list byte) (outData : PCMData_WAV) :
  loaded fs inFile raw ->
  size raw < 13 ->
  Convert_WAV fs inFile outData =
    Returns (if size raw =? 0 then RESULT_FILE_EMPTY
             else RESULT_UNSUPPORTED_FILE_SIZE) outData
  /\ forall off len, Convert_WAV fs inFile outData <> OutOfBounds off len.
Proof.
  intros Hl Hshort. rewrite (Convert_WAV_loaded _ _ _ _ Hl).
  unfold EXPECTED_DATA_POS_START.
  destruct (Z.eqb_spec (size raw) 0); [split; [reflexivity|discriminate]|].
  destruct (Z.leb_spec (size raw) 12); [|lia].
  split; [reflexivity|discriminate].
Qed.

Lemma short_file_rejected_witness :
  Convert_WAV (single_file "/a.wav" (lit "RIFF....WAVE")) "/a.wav" empty_slot
  = Returns RESULT_UNSUPPORTED_FILE_SIZE empty_slot
  /\ Convert_WAV (single_file "/a.wav" []) "/a.wav" empty_slot
     = Returns RESULT_FILE_EMPTY empty_slot.
Proof.
  split.
  - apply (short_file_rejected (single_file "/a.wav" (lit "RIFF....WAVE"))
             "/a.wav" (lit "RIFF....WAVE") empty_slot).
    + apply single_file_loaded; [reflexivity|vm_compute; discriminate].
    + reflexivity.
  - apply (short_file_rejected (single_file "/a.wav" []) "/a.wav" []
             empty_slot).
    + apply single_file_loaded; [reflexivity|vm_compute; discriminate].
    + reflexivity.
Defined.

(** C4, as stated, fails: a path that exists and is a directory is answered
    with invalid-extension, not with file-not-found. *)
Lemma directory_not_file_not_found :
  exists_ only_directories "/music/album.wav" = true
  /\ is_regular_file only_directories "/music/album.wav" = false
  /\ Convert_WAV only_directories "/music/album.wav" empty_slot
     = Returns RESULT_INVALID_EXTENSION empty_slot
  /\ Convert_WAV only_directories "/music/album.wav" empty_slot
     <> Returns RESULT_FILE_NOT_FOUND empty_slot.
Proof. repeat split; try reflexivity. discriminate. Qed.

(** C4 (amended): for every path that exists on the filesystem but is not a
    regular file, Convert_WAV fails with invalid-extension and leaves the
    output slot as it was. *)
Theorem non_regular_path_invalid_extension (fs : FileSystem) (inFile : path)
    (outData : PCMData_WAV) :
  exists_ fs inFile = true ->
  is_regular_file fs inFile = false ->
  Convert_WAV fs inFile outData = Returns RESULT_INVALID_EXTENSION outData.
Proof.
  intros He Hr. unfold Convert_WAV.
  assert (Hq : query_fails fs inFile = false).
  { unfold exists_ in He. unfold query_fails.
    now destruct (file_type_eqb (type (status fs inFile)) ft_none). }
  now rewrite Hq, He, Hr.
Qed.

Lemma non_regular_path_invalid_extension_witness :
  Convert_WAV only_directories "/music/album.wav" empty_slot
  = Returns RESULT_INVALID_EXTENSION empty_slot.
Proof.
  apply (non_regular_path_invalid_extension only_directories
           "/music/album.wav" empty_slot); reflexivity.
Defined.

(** C5, as stated, fails on short files: twelve bytes that do not start with
    RIFF are answered with unsupported-file-size, the size being tested
    before the magic. *)
Lemma short_bad_riff_unsupported_size :
  loaded (single_file "/a.wav" (lit "JUNKJUNKJUNK")) "/a.wav"
    (lit "JUNKJUNKJUNK")
  /\ bytes_at (lit "JUNKJUNKJUNK") 0 4 <> Some (lit "RIFF")
  /\ Convert_WAV (single_file "/a.wav" (lit "JUNKJUNKJUNK")) "/a.wav"
       empty_slot
     = Returns RESULT_UNSUPPORTED_FILE_SIZE empty_slot
  /\ Convert_WAV (single_file "/a.wav" (lit "JUNKJUNKJUNK")) "/a.wav"
       empty_slot
     <> Returns RESULT_INVALID_RIFF_MAGIC empty_slot.
Proof.
  split; [apply single_file_loaded; [reflexivity|vm_compute; discriminate]|].
  repeat split; try reflexivity; vm_compute; discriminate.
Qed.

(** C5 (amended): for every byte sequence of more than 12 bytes loaded from
    a readable .wav file whose bytes [0,4) are not the literal RIFF,
    Convert_WAV returns invalid-riff-magic, whatever the rest of the
    sequence holds. *)
Theorem bad_riff_magic_reported (fs : FileSystem) (inFile : path)
    (raw : list byte) (outData : PCMData_WAV) :
  loaded fs inFile raw ->
  EXPECTED_DATA_POS_START < size raw ->
  bytes_at raw 0 4 <> Some (lit "RIFF") ->
  Convert_WAV fs inFile outData = Returns RESULT_INVALID_RIFF_MAGIC outData.
Proof.
  intros Hl Hbig Hriff. rewrite (Convert_WAV_loaded _ _ _ _ Hl).
  unfold EXPECTED_DATA_POS_START in *.
  destruct (Z.eqb_spec (size raw) 0); [lia|].
  destruct (Z.leb_spec (size raw) 12); [lia|].
  destruct (memcmp_mismatch raw 0 "RIFF" eq_refl) as (c & E & Hc);
    try lia; [exact Hriff|].
  unfold parse. rewrite E. cbn [bind].
  destruct (Z.eqb_spec c 0); [contradiction|]. reflexivity.
Qed.

Lemma bad_riff_magic_reported_witness :
  Convert_WAV (single_file "/a.wav" (lit "JUNKJUNKJUNKJ")) "/a.wav"
    empty_slot
  = Returns RESULT_INVALID_RIFF_MAGIC empty_slot.
Proof.
  apply (bad_riff_magic_reported
           (single_file "/a.wav" (lit "JUNKJUNKJUNKJ")) "/a.wav"
           (lit "JUNKJUNKJUNKJ") empty_slot).
  - apply single_file_loaded; [reflexivity|vm_compute; discriminate].
  - reflexivity.
  - vm_compute. discriminate.
Defined.

(** C6: on a file that passes the magic and format-type checks, a sample
    rate outside its allow-list is reported whatever the channel count and
    the bit depth are; with an allowed sample rate, a channel count outside
    its allow-list is reported whatever the bit depth is; a bit depth
    outside its allow-list is reported only when the other two pass. *)
Theorem validation_priority (fs : FileSystem) (inFile : path)
    (raw : list byte) (outData : PCMData_WAV) (ch sr bps : Z) :
  loaded fs inFile raw ->
  pcm_header raw ch sr bps ->
  (ContainsSampleRate sr = false ->
   Convert_WAV fs inFile outData
   = Returns RESULT_UNSUPPORTED_SAMPLE_RATE outData)
  /\ (ContainsSampleRate sr = true ->
      ContainsChannel (to_u8 ch) = false ->
      Convert_WAV fs inFile outData
      = Returns RESULT_UNSUPPORTED_CHANNELS outData)
  /\ (ContainsSampleRate sr = true ->
      ContainsChannel (to_u8 ch) = true ->
      ContainsBPS (to_u8 bps) = false ->
      Convert_WAV fs inFile outData
      = Returns RESULT_UNSUPPORTED_BITS_PER_SAMPLE outData).
Proof.
  intros Hl Hh. rewrite (Convert_WAV_loaded _ _ _ _ Hl).
  pose proof (pcm_header_size _ _ _ _ Hh) as Hsz.
  unfold EXPECTED_DATA_POS_START.
  destruct (Z.eqb_spec (size raw) 0); [lia|].
  destruct (Z.leb_spec (size raw) 12); [lia|].
  rewrite (parse_pcm_header fs _ _ _ _ Hh).
  repeat split; intros; repeat match goal with
                               | H : _ = _ :> bool |- _ => rewrite H; clear H
                               end; reflexivity.
Qed.

Lemma validation_priority_witness :
  Convert_WAV (single_file "/a.wav" (header_with 1 3 22050 8 []))
    "/a.wav" empty_slot
  = Returns RESULT_UNSUPPORTED_SAMPLE_RATE empty_slot
  /\ Convert_WAV (single_file "/a.wav" (header_with 1 3 48000 8 []))
       "/a.wav" empty_slot
     = Returns RESULT_UNSUPPORTED_CHANNELS empty_slot
  /\ Convert_WAV (single_file "/a.wav" (header_with 1 2 48000 8 []))
       "/a.wav" empty_slot
     = Returns RESULT_UNSUPPORTED_BITS_PER_SAMPLE empty_slot.
Proof.
  split; [|split].
  - apply (validation_priority
             (single_file "/a.wav" (header_with 1 3 22050 8 [])) "/a.wav"
             (header_with 1 3 22050 8 []) empty_slot 3 22050 8).
    + apply single_file_loaded; [reflexivity|vm_compute; discriminate].
    + split; reflexivity.
    + reflexivity.
  - apply (validation_priority
             (single_file "/a.wav" (header_with 1 3 48000 8 [])) "/a.wav"
             (header_with 1 3 48000 8 []) empty_slot 3 48000 8).
    + apply single_file_loaded; [reflexivity|vm_compute; discriminate].
    + split; reflexivity.
    + reflexivity.
    + reflexivity.
  - apply (validation_priority
             (single_file "/a.wav" (header_with 1 2 48000 8 [])) "/a.wav"
             (header_with 1 2 48000 8 []) empty_slot 2 48000 8).
    + apply single_file_loaded; [reflexivity|vm_compute; discriminate].
    + split; reflexivity.
    + reflexivity.
    + reflexivity.
    + reflexivity.
Defined.

(** C7: on a file that passes all header and format validations, if no
    position the scan looks at (from offset 12, while i + 8 is below the
    buffer size) holds the literal data, or the first match gives a data
    offset that is zero or not below the buffer size, Convert_WAV returns
    missing-data-chunk. *)
Theorem missing_data_chunk_reported (fs : FileSystem) (inFile : path)
    (raw : list byte) (outData : PCMData_WAV) (ch sr bps : Z) :
  loaded fs inFile raw ->
  valid_header raw ch sr bps ->
  (forall i, scanned raw i -> ~ data_at raw i)
  \/ (exists i, first_data raw i
                /\ (to_size_t (i + 8) = 0 \/ size raw <= to_size_t (i + 8))) ->
  Convert_WAV fs inFile outData = Returns RESULT_MISSING_DATA_CHUNK outData.
Proof.
  intros Hl Hv [Hnone|(i & ([Hi Hi8] & _) & Hdeg)].
  - exact (Convert_WAV_not_found _ _ _ outData Hl _ _ _ Hv Hnone).
  - exfalso. pose proof (loaded_size _ _ _ Hl) as Hmax.
    rewrite max_size_value in Hmax. unfold EXPECTED_DATA_POS_START in Hi.
    rewrite to_size_t_small in Hdeg by lia. lia.
Qed.

Lemma missing_data_chunk_reported_witness :
  Convert_WAV (single_file "/a.wav" (header_with 1 2 44100 16 (lit "dat")))
    "/a.wav" empty_slot
  = Returns RESULT_MISSING_DATA_CHUNK empty_slot.
Proof.
  apply (missing_data_chunk_reported
           (single_file "/a.wav" (header_with 1 2 44100 16 (lit "dat")))
           "/a.wav" (header_with 1 2 44100 16 (lit "dat")) empty_slot
           2 44100 16).
  - apply single_file_loaded; [reflexivity|vm_compute; discriminate].
  - split; [split|..]; reflexivity.
  - left. intros i [Hlo Hhi].
    change (size (header_with 1 2 44100 16 (lit "dat"))) with 39 in Hhi.
    unfold EXPECTED_DATA_POS_START in Hlo.
    pattern i. apply (forall_range _ 12 19); [|lia].
    cbn [map seq]. repeat constructor; vm_compute; discriminate.
Defined.

(** C8: whenever Convert_WAV returns an outcome other than success, the
    output slot holds the value it held before the call. *)
Theorem failure_leaves_slot_untouched (fs : FileSystem) (inFile : path)
    (outData out' : PCMData_WAV) (r : ConvertResult_WAV) :
  Convert_WAV fs inFile outData = Returns r out' ->
  r <> RESULT_SUCCESS ->
  out' = outData.
Proof.
  unfold Convert_WAV.
  destruct (query_fails fs inFile); [discriminate|].
  destruct (negb (exists_ fs inFile)); [now intros [= <- <-]|].
  destruct (_ || _ || _); [now intros [= <- <-]|].
  destruct (negb (negb _)); [now intros [= <- <-]|].
  unfold after_try.
  destruct (try_block fs inFile) as [pData|r'| | |]; intros [= <- <-];
    [contradiction|reflexivity..].
Qed.

Lemma failure_leaves_slot_untouched_witness :
  Convert_WAV (single_file "/a.wav" (lit "JUNKJUNKJUNKJ")) "/a.wav"
    (mkPCMData_WAV (lit "old") 48000 24 1)
  = Returns RESULT_INVALID_RIFF_MAGIC (mkPCMData_WAV (lit "old") 48000 24 1)
  /\ mkPCMData_WAV (lit "old") 48000 24 1
     = mkPCMData_WAV (lit "old") 48000 24 1.
Proof.
  split; [reflexivity|].
  apply (failure_leaves_slot_untouched
           (single_file "/a.wav" (lit "JUNKJUNKJUNKJ")) "/a.wav"
           (mkPCMData_WAV (lit "old") 48000 24 1)
           (mkPCMData_WAV (lit "old") 48000 24 1)
           RESULT_INVALID_RIFF_MAGIC).
  - reflexivity.
  - discriminate.
Defined.

(** C9: no call of Convert_WAV returns unsupported-wav-format, and a file
    that passes the three magic checks with an audio-format code other than
    1 (IEEE float 3 included) is answered with invalid-format-type. *)
Theorem wav_format_outcome_unreachable :
  (forall fs inFile outData out',
     Convert_WAV fs inFile outData
     <> Returns RESULT_UNSUPPORTED_WAV_FORMAT out')
  /\ (forall fs inFile raw outData format,
        loaded fs inFile raw ->
        bytes_at raw 0 4 = Some (lit "RIFF") ->
        bytes_at raw 8 4 = Some (lit "WAVE") ->
        bytes_at raw 12 4 = Some (lit "fmt ") ->
        uint_at raw 20 2 = Some format ->
        format <> 1 ->
        Convert_WAV fs inFile outData
        = Returns RESULT_INVALID_FORMAT_TYPE outData).
Proof.
  split.
  - intros fs inFile outData out'. unfold Convert_WAV.
    destruct (query_fails fs inFile); [discriminate|].
    destruct (negb (exists_ fs inFile)); [discriminate|].
    destruct (_ || _ || _); [discriminate|].
    destruct (negb (negb _)); [discriminate|].
    pose proof (try_block_never_wav_format fs inFile) as H.
    destruct (try_block fs inFile); try discriminate.
    cbn in H. intros [= -> _]. now apply H.
  - intros fs inFile raw outData format Hl Hriff Hwave Hfmt Hformat Hne.
    rewrite (Convert_WAV_loaded _ _ _ _ Hl).
    pose proof (uint_at_range _ _ _ _ Hformat) as [_ Hsz].
    unfold EXPECTED_DATA_POS_START.
    destruct (Z.eqb_spec (size raw) 0); [lia|].
    destruct (Z.leb_spec (size raw) 12); [lia|].
    unfold parse.
    rewrite (memcmp_match _ 0 "RIFF" eq_refl Hriff).
    cbn [bind Z.eqb negb return_if].
    rewrite (memcmp_match _ 8 "WAVE" eq_refl Hwave).
    cbn [bind Z.eqb negb return_if].
    rewrite (memcmp_match _ 12 "fmt " eq_refl Hfmt).
    cbn [bind Z.eqb negb return_if].
    rewrite (memcpy_at _ _ _ _ Hformat). cbn [bind].
    destruct (Z.eqb_spec format 1); [contradiction|]. reflexivity.
Qed.

Lemma wav_format_outcome_unreachable_witness :
  Convert_WAV (single_file "/a.wav" (header_with 3 2 44100 32 []))
    "/a.wav" empty_slot
  = Returns RESULT_INVALID_FORMAT_TYPE empty_slot.
Proof.
  apply (proj2 wav_format_outcome_unreachable
           (single_file "/a.wav" (header_with 3 2 44100 32 [])) "/a.wav"
           (header_with 3 2 44100 32 []) empty_slot 3).
  - apply single_file_loaded; [reflexivity|vm_compute; discriminate].
  - reflexivity.
  - reflexivity.
  - reflexivity.
  - reflexivity.
  - discriminate.
Defined.

(** C10 fails on the code: a 16-byte file passes the size check and the
    three magic comparisons, and the read of the format code at offset 20
    then lies outside the 16-byte buffer. The same happens to each
    fixed-offset read of a file of 13 to 35 bytes whose earlier checks
    pass. *)
Theorem short_header_read_out_of_bounds :
  loaded (single_file "/a.wav" header_only) "/a.wav" header_only
  /\ EXPECTED_DATA_POS_START < size header_only
  /\ size header_only = 16
  /\ Convert_WAV (single_file "/a.wav" header_only) "/a.wav" empty_slot
     = OutOfBounds 20 2.
Proof.
  split; [apply single_file_loaded; [reflexivity|vm_compute; discriminate]|].
  split; [reflexivity|]. split; reflexivity.
Qed.

(** * Further properties of Convert_WAV *)

Section Inversion.

Lemma bind_Next_inv {A B : Type} (m : step A) (k : A -> step B) (b : B) :
  bind m k = Next b -> exists a, m = Next a /\ k a = Next b.
Proof. destruct m; cbn; intros H; try discriminate. eauto. Qed.

Lemma return_if_Next_inv (c : bool) (r : ConvertResult_WAV) (u : unit) :
  return_if c r = Next u -> c = false.
Proof. now destruct c. Qed.

Lemma memcmp_Next_inv (buf : list byte) (off : Z) (s : string) (c : Z) :
  List.length (lit s) = 4%nat ->
  memcmp buf off s 4 = Next c -> c = 0 ->
  bytes_at buf off 4 = Some (lit s).
Proof.
  intros L H ->.
  destruct (bytes_at buf off 4) as [bs|] eqn:E.
  - assert (F : firstn 4 (lit s) = lit s) by (apply firstn_all2; lia).
    rewrite (memcmp_at _ _ _ _ E), F in H. injection H as H. f_equal.
    apply compare_bytes_eq; [|exact H].
    apply bytes_at_length in E. lia.
  - unfold memcmp, load in H. now rewrite E in H.
Qed.

Lemma memcpy_Next_inv (buf : list byte) (off n v : Z) :
  memcpy buf off n = Next v -> uint_at buf off n = Some v.
Proof.
  unfold memcpy, load, uint_at.
  destruct (bytes_at buf off n); [|discriminate]. cbn. now intros [= <-].
Qed.

Lemma negb_eqb_false (c : Z) : negb (c =? 0) = false -> c = 0.
Proof. destruct (Z.eqb_spec c 0); [auto|discriminate]. Qed.

(** [parse] runs to its end only on a buffer with a valid header and a
    scanned data marker, and then hands out the bytes behind the first one. *)
Lemma parse_Next_inv (fs : FileSystem) (raw : list byte)
    (pData : PCMData_WAV) :
  size raw <= max_size -> EXPECTED_DATA_POS_START < size raw ->
  parse fs raw = Next pData ->
  exists ch sr bps k d,
    valid_header raw ch sr bps /\ first_data raw k /\
    uint_at raw (k + 4) 4 = Some d /\
    pData = {| pcmData := range raw (k + 8) (Z.min (size raw) (k + 8 + d));
               sampleRate := sr;
               bitsPerSample := to_u8 bps;
               channels := to_u8 ch |}.
Proof.
  intros Hmax Hbig H. unfold parse in H.
  apply bind_Next_inv in H as (c1 & M1 & H).
  apply bind_Next_inv in H as (u1 & R1 & H).
  apply return_if_Next_inv, negb_eqb_false in R1.
  apply bind_Next_inv in H as (c2 & M2 & H).
  apply bind_Next_inv in H as (u2 & R2 & H).
  apply return_if_Next_inv, negb_eqb_false in R2.
  apply bind_Next_inv in H as (c3 & M3 & H).
  apply bind_Next_inv in H as (u3 & R3 & H).
  apply return_if_Next_inv, negb_eqb_false in R3.
  apply bind_Next_inv in H as (fmt & F & H).
  apply bind_Next_inv in H as (u4 & R4 & H).
  apply return_if_Next_inv in R4.
  apply bind_Next_inv in H as (ch & C & H).
  apply bind_Next_inv in H as (sr & S & H).
  apply bind_Next_inv in H as (bps & B & H).
  apply bind_Next_inv in H as (u5 & R5 & H).
  apply return_if_Next_inv, negb_false_iff in R5.
  apply bind_Next_inv in H as (u6 & R6 & H).
  apply return_if_Next_inv, negb_false_iff in R6.
  apply bind_Next_inv in H as (u7 & R7 & H).
  apply return_if_Next_inv, negb_false_iff in R7.
  assert (fmt = 1) as -> by (destruct (Z.eqb_spec fmt 1); [auto|discriminate]).
  exists ch, sr, bps.
  destruct (payload_stage_result fs raw Hmax sr (to_u8 ch) (to_u8 bps) Hbig)
    as [[_ E]|(k & d & Hk & Hd & E)]; rewrite E in H; [discriminate|].
  apply bind_Next_inv in H as (u8 & _ & H).
  injection H as <-. exists k, d.
  split; [|split; [exact Hk|split; [exact Hd|reflexivity]]].
  split; [split|..]; try assumption.
  - exact (memcmp_Next_inv _ 0 "RIFF" _ eq_refl M1 R1).
  - exact (memcmp_Next_inv _ 8 "WAVE" _ eq_refl M2 R2).
  - exact (memcmp_Next_inv _ 12 "fmt " _ eq_refl M3 R3).
  - exact (memcpy_Next_inv _ _ _ _ F).
  - exact (memcpy_Next_inv _ _ _ _ C).
  - exact (memcpy_Next_inv _ _ _ _ S).
  - exact (memcpy_Next_inv _ _ _ _ B).
Qed.

(** The [try] block runs to its end only when the stream opened, and then
    on a buffer of more than 12 bytes that [parse] accepts. *)
Lemma try_block_Next_inv (fs : FileSystem) (inFile : path)
    (pData : PCMData_WAV) :
  try_block fs inFile = Next pData ->
  exists content,
    open fs inFile = Opened content /\
    let rawData := read (Opened content) (to_size_t (size content)) in
    size rawData <= max_size /\ EXPECTED_DATA_POS_START < size rawData /\
    parse fs rawData = Next pData.
Proof.
  unfold try_block. intros H.
  apply bind_Next_inv in H as (u0 & O & H).
  apply bind_Next_inv in H as (u1 & R1 & H).
  apply bind_Next_inv in H as (u2 & R2 & H).
  apply bind_Next_inv in H as (u3 & A & H).
  apply return_if_Next_inv in R2.
  unfold allocate in A.
  destruct (Z.gtb_spec (to_size_t (tellg (open fs inFile))) max_size);
    [discriminate|].
  destruct (Z.leb_spec (to_size_t (tellg (open fs inFile)))
              EXPECTED_DATA_POS_START); [discriminate|].
  destruct (open fs inFile) as [content|e] eqn:Eo.
  - exists content. split; [reflexivity|]. cbn [tellg] in *.
    fold (size content) in *. cbn zeta.
    rewrite read_size by (apply Z.mod_pos_bound; reflexivity).
    repeat split; assumption.
  - exfalso. cbn [tellg] in *.
    change (to_size_t (-1)) with 18446744073709551615 in *.
    rewrite max_size_value in *. lia.
Qed.

Lemma In_try_block_codes_dec (r : ConvertResult_WAV) :
  In r try_block_codes \/
  r = RESULT_SUCCESS \/ r = RESULT_FILE_NOT_FOUND \/
  r = RESULT_INVALID_EXTENSION \/ r = RESULT_UNAUTHORIZED_READ \/
  r = RESULT_UNSUPPORTED_WAV_FORMAT.
Proof. destruct r; cbn; tauto. Qed.

Lemma parse_returns (fs : FileSystem) (raw : list byte) :
  returns_within (fun r => In r try_block_codes) (parse fs raw).
Proof.
  unfold parse, payload_stage.
  repeat (apply bind_returns_within;
          [auto with outcomes; apply return_if_within; cbn; tauto
          |intros ?]).
  exact I.
Qed.

Lemma try_block_returns (fs : FileSystem) (inFile : path) :
  returns_within (fun r => In r try_block_codes) (try_block fs inFile).
Proof.
  unfold try_block.
  apply bind_returns_within.
  { destruct (fail _ && _); [|exact I].
    destruct (_ || _); cbn; tauto. }
  intros _.
  do 3 (apply bind_returns_within;
        [auto with outcomes; apply return_if_within; cbn; tauto
        |intros _]).
  apply parse_returns.
Qed.

End Inversion.

Lemma file_type_eqb_eq (a b : file_type) :
  file_type_eqb a b = true <-> a = b.
Proof. split; [destruct a, b; (reflexivity || discriminate)|]. intros ->. now destruct b. Qed.

Lemma has_extension_wav (p : path) :
  negb (has_extension p) || negb (String.eqb (extension p) ".wav") = false
  <-> extension p = ".wav".
Proof.
  unfold has_extension. split.
  - intros H. apply orb_false_iff in H as [_ H].
    apply negb_false_iff in H. now apply String.eqb_eq.
  - intros ->. reflexivity.
Qed.

Lemma readable_loaded (fs : FileSystem) (inFile : path) (raw : list byte) :
  readable fs inFile -> open fs inFile = Opened raw -> size raw <= max_size ->
  loaded fs inFile raw.
Proof. intros [H1 H2 H3] H4 H5. now split. Qed.

Lemma loaded_readable (fs : FileSystem) (inFile : path) (raw : list byte) :
  loaded fs inFile raw -> readable fs inFile.
Proof. intros [H1 H2 H3 _ _]. now split. Qed.

Lemma after_try_never_escapes (outData : PCMData_WAV)
    (s : step PCMData_WAV) :
  after_try outData s <> Escapes.
Proof. now destruct s. Qed.

(** Past the pre-read checks the call is decided by the [try] block. *)
Lemma Convert_WAV_readable (fs : FileSystem) (inFile : path)
    (outData : PCMData_WAV) :
  readable fs inFile ->
  Convert_WAV fs inFile outData = after_try outData (try_block fs inFile).
Proof.
  intros [Hreg Hext Hperm].
  unfold Convert_WAV, query_fails, exists_, is_regular_file, has_extension.
  rewrite Hreg, Hext. cbn [file_type_eqb negb andb orb].
  change (negb (".wav" =? "")%string) with true.
  change (negb (".wav" =? ".wav")%string) with false.
  cbn [negb orb].
  destruct (Z.eqb_spec
              (Z.land (permissions (status fs inFile))
                 (Z.lor perms_owner_read
                    (Z.lor perms_group_read perms_others_read)))
              perms_none); [contradiction|].
  reflexivity.
Qed.

(** The pre-read checks passed whenever the result is one that only the
    [try] block produces. *)
Lemma Convert_WAV_try_inv (fs : FileSystem) (inFile : path)
    (outData out' : PCMData_WAV) (r : ConvertResult_WAV) :
  Convert_WAV fs inFile outData = Returns r out' ->
  r <> RESULT_FILE_NOT_FOUND -> r <> RESULT_INVALID_EXTENSION ->
  r <> RESULT_UNAUTHORIZED_READ ->
  readable fs inFile /\
  after_try outData (try_block fs inFile) = Returns r out'.
Proof.
  unfold Convert_WAV, exists_, is_regular_file. intros H N1 N2 N3.
  destruct (query_fails fs inFile); [discriminate|].
  destruct (negb _ && negb _); cbn [negb] in H; [|congruence].
  destruct (file_type_eqb (type (status fs inFile)) ft_regular) eqn:Et;
    cbn [negb orb] in H; [|congruence].
  destruct (negb (has_extension inFile)
            || negb (String.eqb (extension inFile) ".wav")) eqn:Ee;
    [congruence|].
  destruct (Z.eqb_spec
              (Z.land (permissions (status fs inFile))
                 (Z.lor perms_owner_read
                    (Z.lor perms_group_read perms_others_read)))
              perms_none); cbn [negb] in H; [congruence|].
  split; [|exact H]. split; [|now apply has_extension_wav|assumption].
  now apply file_type_eqb_eq.
Qed.

Lemma Convert_WAV_success_inv (fs : FileSystem) (inFile : path)
    (outData pData : PCMData_WAV) :
  Convert_WAV fs inFile outData = Returns RESULT_SUCCESS pData ->
  readable fs inFile /\ try_block fs inFile = Next pData.
Proof.
  intros H.
  apply Convert_WAV_try_inv in H as [Hr H]; try discriminate.
  split; [exact Hr|].
  pose proof (try_block_returns fs inFile) as Hcodes.
  destruct (try_block fs inFile) as [p|r| | |]; cbn in H, Hcodes;
    try discriminate.
  - now injection H as ->.
  - injection H as -> _. cbn in Hcodes.
    repeat (destruct Hcodes as [Hcodes|Hcodes]; [discriminate|]).
    destruct Hcodes.
Qed.

Lemma Contains_In (x : Z) (l : list Z) :
  existsb (Z.eqb x) l = true <-> In x l.
Proof.
  rewrite existsb_exists. split.
  - intros (y & Hy & E). apply Z.eqb_eq in E. now subst.
  - intros H. exists x. split; [exact H|apply Z.eqb_refl].
Qed.

Lemma bytes_at_None (buf : list byte) (off n : Z) :
  0 <= off -> 0 <= n -> bytes_at buf off n = None -> size buf < off + n.
Proof.
  intros H1 H2. unfold bytes_at.
  destruct (Z.leb_spec 0 off); [|lia].
  destruct (Z.leb_spec 0 n); [|lia].
  destruct (Z.leb_spec (off + n) (size buf)); [discriminate|]. auto.
Qed.

(** X1: a call succeeds only on a readable regular .wav file whose content
    starts with a valid PCM header and holds a scanned data marker; the
    output slot then holds the bytes behind the first marker, up to the
    clamped end, and the three decoded format values. *)
Theorem success_only_on_valid_file (fs : FileSystem) (inFile : path)
    (raw : list byte) (outData pData : PCMData_WAV) :
  open fs inFile = Opened raw ->
  size raw <= max_size ->
  Convert_WAV fs inFile outData = Returns RESULT_SUCCESS pData ->
  loaded fs inFile raw /\
  exists ch sr bps k d,
    valid_header raw ch sr bps /\ first_data raw k /\
    uint_at raw (k + 4) 4 = Some d /\
    pData = {| pcmData := range raw (k + 8) (Z.min (size raw) (k + 8 + d));
               sampleRate := sr;
               bitsPerSample := to_u8 bps;
               channels := to_u8 ch |}.
Proof.
  intros Hopen Hmax H.
  apply Convert_WAV_success_inv in H as [Hr H].
  split; [now apply readable_loaded|].
  apply try_block_Next_inv in H as (content & Ho & H).
  rewrite Hopen in Ho. injection Ho as <-. cbn zeta in H.
  pose proof (size_nonneg raw). rewrite max_size_value in Hmax.
  rewrite to_size_t_small, read_Opened in H by lia.
  destruct H as (H1 & H2 & H3). now apply (parse_Next_inv fs).
Qed.

Lemma success_only_on_valid_file_witness :
  loaded (single_file "/a.wav" (minimal_wav (lit "PCM!"))) "/a.wav"
    (minimal_wav (lit "PCM!")) /\
  exists ch sr bps k d,
    valid_header (minimal_wav (lit "PCM!")) ch sr bps /\
    first_data (minimal_wav (lit "PCM!")) k /\
    uint_at (minimal_wav (lit "PCM!")) (k + 4) 4 = Some d /\
    {| pcmData := lit "PCM!"; sampleRate := 44100;
       bitsPerSample := 16; channels := 2 |}
    = {| pcmData :=
           range (minimal_wav (lit "PCM!")) (k + 8)
             (Z.min (size (minimal_wav (lit "PCM!"))) (k + 8 + d));
         sampleRate := sr;
         bitsPerSample := to_u8 bps;
         channels := to_u8 ch |}.
Proof.
  apply (success_only_on_valid_file
           (single_file "/a.wav" (minimal_wav (lit "PCM!"))) "/a.wav"
           (minimal_wav (lit "PCM!")) empty_slot
           {| pcmData := lit "PCM!"; sampleRate := 44100;
              bitsPerSample := 16; channels := 2 |}).
  - reflexivity.
  - vm_compute. discriminate.
  - reflexivity.
Defined.

(** X2: whatever the filesystem holds, the value a successful call leaves
    in the output slot has its sample rate, channel count and bit depth in
    the three allow-lists. *)
Theorem success_metadata_allowed (fs : FileSystem) (inFile : path)
    (outData pData : PCMData_WAV) :
  Convert_WAV fs inFile outData = Returns RESULT_SUCCESS pData ->
  In (sampleRate pData) ALLOWED_SAMPLE_RATES /\
  In (channels pData) ALLOWED_CHANNELS /\
  In (bitsPerSample pData) ALLOWED_BPS.
Proof.
  intros H. apply Convert_WAV_success_inv in H as [_ H].
  apply try_block_Next_inv in H as (content & _ & H). cbn zeta in H.
  destruct H as (H1 & H2 & H3).
  apply parse_Next_inv in H3
    as (ch & sr & bps & k & d & [_ Vs Vc Vb] & _ & _ & ->); try assumption.
  cbn [sampleRate channels bitsPerSample].
  repeat split; now apply Contains_In.
Qed.

Lemma success_metadata_allowed_witness :
  In 44100 ALLOWED_SAMPLE_RATES /\ In 2 ALLOWED_CHANNELS /\
  In 16 ALLOWED_BPS.
Proof.
  apply (success_metadata_allowed
           (single_file "/a.wav" (minimal_wav (lit "PCM!"))) "/a.wav"
           empty_slot
           {| pcmData := lit "PCM!"; sampleRate := 44100;
              bitsPerSample := 16; channels := 2 |}).
  reflexivity.
Defined.

(** X3: a loaded file of more than 12 bytes that starts with RIFF but does
    not hold WAVE in bytes [8,12) is answered with invalid-wave-magic. *)
Theorem bad_wave_magic_reported (fs : FileSystem) (inFile : path)
    (raw : list byte) (outData : PCMData_WAV) :
  loaded fs inFile raw ->
  EXPECTED_DATA_POS_START < size raw ->
  bytes_at raw 0 4 = Some (lit "RIFF") ->
  bytes_at raw 8 4 <> Some (lit "WAVE") ->
  Convert_WAV fs inFile outData = Returns RESULT_INVALID_WAVE_MAGIC outData.
Proof.
  intros Hl Hbig Hriff Hwave. rewrite (Convert_WAV_loaded _ _ _ _ Hl).
  unfold EXPECTED_DATA_POS_START in *.
  destruct (Z.eqb_spec (size raw) 0); [lia|].
  destruct (Z.leb_spec (size raw) 12); [lia|].
  destruct (memcmp_mismatch raw 8 "WAVE" eq_refl) as (c & E & Hc);
    try lia; [exact Hwave|].
  unfold parse. rewrite (memcmp_match _ 0 "RIFF" eq_refl Hriff).
  cbn [bind Z.eqb negb return_if]. rewrite E. cbn [bind].
  destruct (Z.eqb_spec c 0); [contradiction|]. reflexivity.
Qed.

Lemma bad_wave_magic_reported_witness :
  Convert_WAV (single_file "/a.wav" (lit "RIFF....AVI LIST")) "/a.wav"
    empty_slot
  = Returns RESULT_INVALID_WAVE_MAGIC empty_slot.
Proof.
  apply (bad_wave_magic_reported
           (single_file "/a.wav" (lit "RIFF....AVI LIST")) "/a.wav"
           (lit "RIFF....AVI LIST") empty_slot).
  - apply single_file_loaded; [reflexivity|vm_compute; discriminate].
  - reflexivity.
  - reflexivity.
  - vm_compute. discriminate.
Defined.

(** X4: a loaded file of at least 16 bytes that carries the RIFF and WAVE
    magics but not the fmt chunk id in bytes [12,16) is answered with
    invalid-fmt-chunk; the decoder does not look for a fmt chunk anywhere
    else. *)
Theorem bad_fmt_chunk_reported (fs : FileSystem) (inFile : path)
    (raw : list byte) (outData : PCMData_WAV) :
  loaded fs inFile raw ->
  16 <= size raw ->
  bytes_at raw 0 4 = Some (lit "RIFF") ->
  bytes_at raw 8 4 = Some (lit "WAVE") ->
  bytes_at raw 12 4 <> Some (lit "fmt ") ->
  Convert_WAV fs inFile outData = Returns RESULT_INVALID_FMT_CHUNK outData.
Proof.
  intros Hl Hbig Hriff Hwave Hfmt. rewrite (Convert_WAV_loaded _ _ _ _ Hl).
  unfold EXPECTED_DATA_POS_START in *.
  destruct (Z.eqb_spec (size raw) 0); [lia|].
  destruct (Z.leb_spec (size raw) 12); [lia|].
  destruct (memcmp_mismatch raw 12 "fmt " eq_refl) as (c & E & Hc);
    try lia; [exact Hfmt|].
  unfold parse. rewrite (memcmp_match _ 0 "RIFF" eq_refl Hriff).
  cbn [bind Z.eqb negb return_if].
  rewrite (memcmp_match _ 8 "WAVE" eq_refl Hwave).
  cbn [bind Z.eqb negb return_if]. rewrite E. cbn [bind].
  destruct (Z.eqb_spec c 0); [contradiction|]. reflexivity.
Qed.

Lemma bad_fmt_chunk_reported_witness :
  Convert_WAV (single_file "/a.wav" (lit "RIFF....WAVELIST....fmt "))
    "/a.wav" empty_slot
  = Returns RESULT_INVALID_FMT_CHUNK empty_slot.
Proof.
  apply (bad_fmt_chunk_reported
           (single_file "/a.wav" (lit "RIFF....WAVELIST....fmt ")) "/a.wav"
           (lit "RIFF....WAVELIST....fmt ") empty_slot).
  - apply single_file_loaded; [reflexivity|vm_compute; discriminate].
  - vm_compute. discriminate.
  - reflexivity.
  - reflexivity.
  - vm_compute. discriminate.
Defined.

(** X5: when the stream over a file that passed the pre-read checks fails
    to open, the call returns file-locked for the error numbers EBUSY and
    ETXTBSY and unknown-read-error for every other one, the error number 0
    included (there through the exception of the buffer allocation). *)
Theorem open_failure_classified (fs : FileSystem) (inFile : path)
    (outData : PCMData_WAV) (e : Z) :
  readable fs inFile ->
  open fs inFile = OpenFailed e ->
  Convert_WAV fs inFile outData =
    Returns (if (e =? EBUSY) || (e =? ETXTBSY)
             then RESULT_FILE_LOCKED
             else RESULT_UNKNOWN_READ_ERROR) outData.
Proof.
  intros Hr Ho. rewrite (Convert_WAV_readable _ _ _ Hr).
  unfold try_block. rewrite Ho. cbn [fail errno_after andb tellg].
  destruct (Z.eqb_spec e 0) as [->|Hne]; cbn [negb].
  - reflexivity.
  - now destruct ((e =? EBUSY) || (e =? ETXTBSY)).
Qed.

Lemma open_failure_classified_witness :
  Convert_WAV
    {| status _ := {| type := ft_regular; permissions := 420 |};
       open _ := OpenFailed 0;
       can_allocate _ := true |} "/a.wav" empty_slot
  = Returns RESULT_UNKNOWN_READ_ERROR empty_slot
  /\ Convert_WAV
       {| status _ := {| type := ft_regular; permissions := 420 |};
          open _ := OpenFailed 26;
       can_allocate _ := true |} "/a.wav" empty_slot
     = Returns RESULT_FILE_LOCKED empty_slot.
Proof.
  split.
  - apply (open_failure_classified
             {| status _ := {| type := ft_regular; permissions := 420 |};
                open _ := OpenFailed 0;
       can_allocate _ := true |} "/a.wav" empty_slot 0).
    + split; [reflexivity|reflexivity|vm_compute; discriminate].
    + reflexivity.
  - apply (open_failure_classified
             {| status _ := {| type := ft_regular; permissions := 420 |};
                open _ := OpenFailed 26;
       can_allocate _ := true |} "/a.wav" empty_slot 26).
    + split; [reflexivity|reflexivity|vm_compute; discriminate].
    + reflexivity.
Defined.

Lemma Convert_WAV_pre_read (fs : FileSystem) (inFile : path)
    (outData : PCMData_WAV) :
  Convert_WAV fs inFile outData =
    if query_fails fs inFile then Escapes
    else if negb (exists_ fs inFile)
    then Returns RESULT_FILE_NOT_FOUND outData
    else if negb (is_regular_file fs inFile)
            || negb (String.eqb (extension inFile) ".wav")
    then Returns RESULT_INVALID_EXTENSION outData
    else if Z.land (permissions (status fs inFile))
              (Z.lor perms_owner_read
                 (Z.lor perms_group_read perms_others_read))
            =? perms_none
    then Returns RESULT_UNAUTHORIZED_READ outData
    else after_try outData (try_block fs inFile).
Proof.
  unfold Convert_WAV.
  destruct (query_fails fs inFile); [reflexivity|].
  destruct (negb (exists_ fs inFile)); [reflexivity|].
  assert (E : negb (has_extension inFile)
              || negb (String.eqb (extension inFile) ".wav")
              = negb (String.eqb (extension inFile) ".wav")).
  { unfold has_extension.
    destruct (String.eqb_spec (extension inFile) ".wav") as [->|];
      [reflexivity|apply orb_true_r]. }
  rewrite <- orb_assoc, E.
  destruct (negb (is_regular_file fs inFile) || _); [reflexivity|].
  now destruct (_ =? perms_none).
Qed.

Lemma after_try_codes (fs : FileSystem) (inFile : path)
    (outData out' : PCMData_WAV) (r : ConvertResult_WAV) :
  after_try outData (try_block fs inFile) = Returns r out' ->
  r = RESULT_SUCCESS \/ In r try_block_codes.
Proof.
  pose proof (try_block_returns fs inFile) as H.
  destruct (try_block fs inFile); cbn in *; intros [= <- _]; tauto.
Qed.

(** X6: the pre-read stage is exact. The exception of the first status
    query leaves the function exactly when the query fails;
    file-not-found is returned exactly when the query reports that the
    path does not exist, invalid-extension when the path exists but is not
    a regular file or its extension is not .wav, unauthorized-read when it
    is a regular .wav file with none of the three read bits set. No later
    stage returns these codes. *)
Theorem pre_read_outcomes_exact (fs : FileSystem) (inFile : path)
    (outData : PCMData_WAV) :
  (Convert_WAV fs inFile outData = Escapes
   <-> type (status fs inFile) = ft_none)
  /\ ((exists out', Convert_WAV fs inFile outData
                    = Returns RESULT_FILE_NOT_FOUND out')
      <-> type (status fs inFile) = ft_not_found)
  /\ ((exists out', Convert_WAV fs inFile outData
                    = Returns RESULT_INVALID_EXTENSION out')
      <-> exists_ fs inFile = true
          /\ (is_regular_file fs inFile = false
              \/ extension inFile <> ".wav"))
  /\ ((exists out', Convert_WAV fs inFile outData
                    = Returns RESULT_UNAUTHORIZED_READ out')
      <-> exists_ fs inFile = true
          /\ is_regular_file fs inFile = true
          /\ extension inFile = ".wav"
          /\ Z.land (permissions (status fs inFile))
               (Z.lor perms_owner_read
                  (Z.lor perms_group_read perms_others_read))
             = perms_none).
Proof.
  rewrite Convert_WAV_pre_read. unfold query_fails, exists_, is_regular_file.
  destruct (type (status fs inFile)); cbn [file_type_eqb negb andb orb];
    try (destruct (String.eqb_spec (extension inFile) ".wav"); cbn [negb];
         [destruct (Z.eqb_spec
                      (Z.land (permissions (status fs inFile))
                         (Z.lor perms_owner_read
                            (Z.lor perms_group_read perms_others_read)))
                      perms_none)|]);
    (split; [|split; [|split]]); (split; intros H);
    repeat match goal with
           | H : exists _, _ |- _ => destruct H
           | H : _ /\ _ |- _ => destruct H
           | H : _ \/ _ |- _ => destruct H
           | H : False |- _ => destruct H
           | H : after_try _ _ = Returns _ _ |- _ =>
               apply after_try_codes in H; cbn [In try_block_codes] in H
           end;
    try congruence; try (exfalso; eapply after_try_never_escapes; eassumption);
    intuition eauto.
Qed.

(** X7: a loaded file of at least 36 bytes always gets a result code: the
    call neither reads outside the buffer nor scans for ever, whatever the
    bytes are. *)
Theorem long_file_gets_a_result (fs : FileSystem) (inFile : path)
    (raw : list byte) (outData : PCMData_WAV) :
  loaded fs inFile raw ->
  36 <= size raw ->
  exists r out', Convert_WAV fs inFile outData = Returns r out'.
Proof.
  intros Hl Hsz.
  pose proof (Convert_WAV_in_bounds _ _ _ outData Hl Hsz) as Hin.
  pose proof (Convert_WAV_terminates fs inFile outData) as Hterm.
  pose proof (Convert_WAV_readable fs inFile outData
                (loaded_readable _ _ _ Hl)) as Htry.
  destruct (Convert_WAV fs inFile outData) as [r out'|off len| |].
  - now exists r, out'.
  - now destruct (Hin off len).
  - symmetry in Htry. now apply after_try_never_escapes in Htry.
  - now destruct Hterm.
Qed.

Lemma long_file_gets_a_result_witness :
  exists r out',
    Convert_WAV
      (single_file "/a.wav" (lit "data data data data data data data data"))
      "/a.wav" empty_slot
    = Returns r out'.
Proof.
  apply (long_file_gets_a_result
           (single_file "/a.wav"
              (lit "data data data data data data data data"))
           "/a.wav" (lit "data data data data data data data data")
           empty_slot).
  - apply single_file_loaded; [reflexivity|vm_compute; discriminate].
  - vm_compute. discriminate.
Defined.

Section ShortFiles.

Variable fs : FileSystem.
Variable raw : list byte.

Lemma memcmp_cases (off : Z) (s : string) :
  0 <= off ->
  (exists c, memcmp raw off s 4 = Next c)
  \/ (memcmp raw off s 4 = Undefined off 4 /\ size raw < off + 4).
Proof.
  intros Hoff. unfold memcmp, load.
  destruct (bytes_at raw off 4) eqn:E; cbn [bind]; [eauto|].
  right. split; [reflexivity|]. apply bytes_at_None in E; lia.
Qed.

Lemma memcpy_cases (off n : Z) :
  0 <= off -> 0 <= n ->
  (exists v, memcpy raw off n = Next v)
  \/ (memcpy raw off n = Undefined off n /\ size raw < off + n).
Proof.
  intros Hoff Hn. unfold memcpy, load.
  destruct (bytes_at raw off n) eqn:E; cbn [bind]; [eauto|].
  right. split; [reflexivity|]. apply bytes_at_None in E; lia.
Qed.

(** On a buffer of fewer than 36 bytes [parse] stops at one of its first
    four checks or at a read that leaves the buffer. *)
Lemma parse_short :
  size raw < 36 ->
  (exists r, parse fs raw = Return r /\
             In r [RESULT_INVALID_RIFF_MAGIC; RESULT_INVALID_WAVE_MAGIC;
                   RESULT_INVALID_FMT_CHUNK; RESULT_INVALID_FORMAT_TYPE])
  \/ (exists off len,
        parse fs raw = Undefined off len /\ size raw < off + len).
Proof.
  intros Hshort. unfold parse.
  assert (Hstop : forall r,
            In r [RESULT_INVALID_RIFF_MAGIC; RESULT_INVALID_WAVE_MAGIC;
                  RESULT_INVALID_FMT_CHUNK; RESULT_INVALID_FORMAT_TYPE] ->
            (exists r', @Return PCMData_WAV r = Return r' /\
               In r' [RESULT_INVALID_RIFF_MAGIC; RESULT_INVALID_WAVE_MAGIC;
                      RESULT_INVALID_FMT_CHUNK; RESULT_INVALID_FORMAT_TYPE])
            \/ (exists off len, @Return PCMData_WAV r = Undefined off len /\
                   size raw < off + len))
    by (intros r Hr; left; now exists r).
  assert (Hout : forall off len, size raw < off + len ->
            (exists r', @Undefined PCMData_WAV off len = Return r' /\
               In r' [RESULT_INVALID_RIFF_MAGIC; RESULT_INVALID_WAVE_MAGIC;
                      RESULT_INVALID_FMT_CHUNK; RESULT_INVALID_FORMAT_TYPE])
            \/ (exists off' len', @Undefined PCMData_WAV off len
                                  = Undefined off' len' /\
                   size raw < off' + len'))
    by (intros off len Ho; right; now exists off, len).
  destruct (memcmp_cases 0 "RIFF" ltac:(lia)) as [[c ->]|[-> ?]];
    cbn [bind]; [|now apply Hout].
  destruct (c =? 0); cbn [negb return_if bind]; [|apply Hstop; cbn; tauto].
  destruct (memcmp_cases 8 "WAVE" ltac:(lia)) as [[c' ->]|[-> ?]];
    cbn [bind]; [|now apply Hout].
  destruct (c' =? 0); cbn [negb return_if bind]; [|apply Hstop; cbn; tauto].
  destruct (memcmp_cases 12 "fmt " ltac:(lia)) as [[c'' ->]|[-> ?]];
    cbn [bind]; [|now apply Hout].
  destruct (c'' =? 0); cbn [negb return_if bind];
    [|apply Hstop; cbn; tauto].
  destruct (memcpy_cases 20 2 ltac:(lia) ltac:(lia)) as [[fmt ->]|[-> ?]];
    cbn [bind]; [|now apply Hout].
  destruct (fmt =? 1); cbn [negb return_if bind];
    [|apply Hstop; cbn; tauto].
  destruct (memcpy_cases 22 2 ltac:(lia) ltac:(lia)) as [[ch ->]|[-> ?]];
    cbn [bind]; [|now apply Hout].
  destruct (memcpy_cases 24 4 ltac:(lia) ltac:(lia)) as [[sr ->]|[-> ?]];
    cbn [bind]; [|now apply Hout].
  destruct (memcpy_cases 34 2 ltac:(lia) ltac:(lia)) as [[bps E]|[-> ?]];
    cbn [bind]; [|now apply Hout].
  exfalso. apply memcpy_Next_inv, uint_at_range in E. lia.
Qed.

End ShortFiles.

(** X8: a loaded file of 13 to 35 bytes is never decoded and never reaches
    the allow-list checks: the call either returns one of invalid-riff-magic,
    invalid-wave-magic, invalid-fmt-chunk, invalid-format-type, or it reads
    past the end of the buffer. *)
Theorem short_file_never_decodes (fs : FileSystem) (inFile : path)
    (raw : list byte) (outData : PCMData_WAV) :
  loaded fs inFile raw ->
  EXPECTED_DATA_POS_START < size raw < 36 ->
  (exists r,
     Convert_WAV fs inFile outData = Returns r outData /\
     In r [RESULT_INVALID_RIFF_MAGIC; RESULT_INVALID_WAVE_MAGIC;
           RESULT_INVALID_FMT_CHUNK; RESULT_INVALID_FORMAT_TYPE])
  \/ (exists off len,
        Convert_WAV fs inFile outData = OutOfBounds off len /\
        size raw < off + len).
Proof.
  intros Hl [Hlo Hhi]. rewrite (Convert_WAV_loaded _ _ _ _ Hl).
  unfold EXPECTED_DATA_POS_START in *.
  destruct (Z.eqb_spec (size raw) 0); [lia|].
  destruct (Z.leb_spec (size raw) 12); [lia|].
  destruct (parse_short fs raw Hhi)
    as [(r & -> & Hr)|(off & len & -> & Ho)].
  - left. now exists r.
  - right. now exists off, len.
Qed.

Lemma short_file_never_decodes_witness :
  exists off len,
    Convert_WAV (single_file "/a.wav" (firstn 35 (minimal_wav [])))
      "/a.wav" empty_slot
    = OutOfBounds off len /\
    size (firstn 35 (minimal_wav [])) < off + len.
Proof.
  destruct (short_file_never_decodes
              (single_file "/a.wav" (firstn 35 (minimal_wav []))) "/a.wav"
              (firstn 35 (minimal_wav [])) empty_slot)
    as [(r & E & _)|H].
  - apply single_file_loaded; [reflexivity|vm_compute; discriminate].
  - split; reflexivity.
  - discriminate E.
  - exact H.
Defined.

Lemma range_empty (raw : list byte) (first : Z) :
  range raw first first = [].
Proof. unfold range. now rewrite Z.sub_diag. Qed.

(** X9: once the scan has found the data marker, a declared size of 0
    always gives success with an empty payload (the call is rejected only
    when no byte follows the chunk header, for then the marker is not
    scanned), and a successful call hands out an empty payload only when
    the declared size is 0. *)
Theorem empty_payload_iff_declared_zero (fs : FileSystem) (inFile : path)
    (raw : list byte) (outData : PCMData_WAV) (ch sr bps k d : Z) :
  loaded fs inFile raw ->
  valid_header raw ch sr bps ->
  first_data raw k ->
  uint_at raw (k + 4) 4 = Some d ->
  (d = 0 ->
   Convert_WAV fs inFile outData =
     Returns RESULT_SUCCESS
       {| pcmData := [];
          sampleRate := sr;
          bitsPerSample := to_u8 bps;
          channels := to_u8 ch |})
  /\ (forall pData,
        Convert_WAV fs inFile outData = Returns RESULT_SUCCESS pData ->
        (pcmData pData = [] <-> d = 0)).
Proof.
  intros Hl Hv Hk Hd.
  rewrite (Convert_WAV_reserve _ _ _ outData Hl _ _ _ _ _ Hv Hk Hd).
  destruct Hk as ([Hk Hk8] & _). unfold EXPECTED_DATA_POS_START in Hk.
  apply uint_at_range in Hd as [Hd _].
  pose proof (loaded_size _ _ _ Hl) as Hmax. rewrite max_size_value in Hmax.
  split.
  - intros ->. rewrite allocate_present by (rewrite ?max_size_value; lia).
    cbn [bind after_try].
    replace (Z.min (size raw) (k + 8 + 0)) with (k + 8) by lia.
    now rewrite range_empty.
  - intros pData.
    destruct (allocate_cases fs (size raw) d) as [-> | ->];
      cbn [bind after_try]; [|discriminate].
    intros [= <-]. cbn [pcmData].
    assert (L : size (range raw (k + 8) (Z.min (size raw) (k + 8 + d)))
                = Z.min (size raw) (k + 8 + d) - (k + 8))
      by (apply range_length; lia).
    split.
    + intros E. rewrite E in L. cbn in L. lia.
    + intros ->.
      replace (Z.min (size raw) (k + 8 + 0)) with (k + 8) by lia.
      apply range_empty.
Qed.

Lemma empty_payload_iff_declared_zero_witness :
  Convert_WAV (single_file "/a.wav" (wav_header 0 ++ lit "LIST"))
    "/a.wav" empty_slot
  = Returns RESULT_SUCCESS
      {| pcmData := [];
         sampleRate := 44100;
         bitsPerSample := to_u8 16;
         channels := to_u8 2 |}.
Proof.
  apply (empty_payload_iff_declared_zero
           (single_file "/a.wav" (wav_header 0 ++ lit "LIST")) "/a.wav"
           (wav_header 0 ++ lit "LIST") empty_slot 2 44100 16 36 0).
  - apply single_file_loaded; [reflexivity|vm_compute; discriminate].
  - split; [split|..]; reflexivity.
  - split; [split; [vm_compute; discriminate|reflexivity]|].
    split; [reflexivity|].
    apply (forall_range _ 12 24). cbn [map seq].
    repeat constructor; vm_compute; discriminate.
  - reflexivity.
  - reflexivity.
Defined.

(** X10: a loaded file with a valid header has exactly three possible
    outcomes: missing-data-chunk, with the output slot untouched, when no
    scanned position holds the data literal; when one does, success if the
    reserve of the size declared behind the first marker goes through, and
    unknown-read-error, with the output slot untouched, if it throws. *)
Theorem valid_header_outcomes (fs : FileSystem) (inFile : path)
    (raw : list byte) (outData : PCMData_WAV) (ch sr bps : Z) :
  loaded fs inFile raw ->
  valid_header raw ch sr bps ->
  ((forall j, scanned raw j -> ~ data_at raw j) /\
   Convert_WAV fs inFile outData = Returns RESULT_MISSING_DATA_CHUNK outData)
  \/ (exists k d,
        first_data raw k /\ uint_at raw (k + 4) 4 = Some d /\
        ((allocate fs (size raw) d = Next tt /\
          exists pData,
            Convert_WAV fs inFile outData = Returns RESULT_SUCCESS pData)
         \/ (allocate fs (size raw) d = Throw /\
             Convert_WAV fs inFile outData
             = Returns RESULT_UNKNOWN_READ_ERROR outData))).
Proof.
  intros Hl Hv. rewrite (Convert_WAV_valid _ _ _ _ _ _ _ Hl Hv).
  pose proof (pcm_header_size _ _ _ _ (valid_pcm _ _ _ _ Hv)) as Hsz.
  destruct (payload_stage_result fs raw (loaded_size _ _ _ Hl)
              sr (to_u8 ch) (to_u8 bps))
    as [[Hnone E]|(k & d & Hk & Hd & E)]; rewrite ?E.
  - unfold EXPECTED_DATA_POS_START. lia.
  - left. now split.
  - right. exists k, d. split; [exact Hk|]. split; [exact Hd|].
    destruct (allocate_cases fs (size raw) d) as [Ha|Ha]; rewrite Ha.
    + left. split; [reflexivity|]. eexists. reflexivity.
    + right. split; reflexivity.
Qed.

Lemma valid_header_outcomes_witness :
  ((forall j, scanned oversized_declaration j ->
              ~ data_at oversized_declaration j) /\
   Convert_WAV
     (with_memory (2 ^ 30) (single_file "/a.wav" oversized_declaration))
     "/a.wav" empty_slot
   = Returns RESULT_MISSING_DATA_CHUNK empty_slot)
  \/ (exists k d,
        first_data oversized_declaration k /\
        uint_at oversized_declaration (k + 4) 4 = Some d /\
        ((allocate
            (with_memory (2 ^ 30)
               (single_file "/a.wav" oversized_declaration))
            (size oversized_declaration) d = Next tt /\
          exists pData,
            Convert_WAV
              (with_memory (2 ^ 30)
                 (single_file "/a.wav" oversized_declaration))
              "/a.wav" empty_slot
            = Returns RESULT_SUCCESS pData)
         \/ (allocate
               (with_memory (2 ^ 30)
                  (single_file "/a.wav" oversized_declaration))
               (size oversized_declaration) d = Throw /\
             Convert_WAV
               (with_memory (2 ^ 30)
                  (single_file "/a.wav" oversized_declaration))
               "/a.wav" empty_slot
             = Returns RESULT_UNKNOWN_READ_ERROR empty_slot))).
Proof.
  apply (valid_header_outcomes
           (with_memory (2 ^ 30) (single_file "/a.wav" oversized_declaration))
           "/a.wav" oversized_declaration empty_slot 2 44100 16).
  - split; try reflexivity; vm_compute; discriminate.
  - split; [split|..]; reflexivity.
Defined.

(** X11: the diagnostic names of two different result codes differ, and
    none of them is the fallback name RESULT_UNKNOWN. *)
Theorem ResultToString_injective (a b : ConvertResult_WAV) :
  (ResultToString a = ResultToString b -> a = b)
  /\ ResultToString a <> "RESULT_UNKNOWN".
Proof.
  split.
  - destruct a, b; intros H; try reflexivity; discriminate H.
  - destruct a; discriminate.
Qed.

(** X12: the channel count and the bit depth are checked and handed out
    after truncation to their low byte: a file with a valid header whose
    16-bit fields hold [ch] and [bps] decodes, when the reserve of the
    declared size goes through, with [ch mod 256] channels and
    [bps mod 256] bits per sample, so that a channel field of 258 is taken
    for stereo. *)
Theorem wide_fields_truncated (fs : FileSystem) (inFile : path)
    (raw : list byte) (outData : PCMData_WAV) (ch sr bps k d : Z) :
  loaded fs inFile raw ->
  pcm_header raw ch sr bps ->
  ContainsSampleRate sr = true ->
  ContainsChannel (ch mod 256) = true ->
  ContainsBPS (bps mod 256) = true ->
  first_data raw k ->
  uint_at raw (k + 4) 4 = Some d ->
  allocate fs (size raw) d = Next tt ->
  exists pData,
    Convert_WAV fs inFile outData = Returns RESULT_SUCCESS pData /\
    sampleRate pData = sr /\
    channels pData = ch mod 256 /\
    bitsPerSample pData = bps mod 256.
Proof.
  intros Hl Hh Hs Hc Hb Hk Hd Ha.
  assert (Hv : valid_header raw ch sr bps) by now split.
  rewrite (Convert_WAV_found _ _ _ outData Hl _ _ _ k d Hv Hk Hd Ha).
  eexists. split; [reflexivity|]. now cbn.
Qed.

Lemma wide_fields_truncated_witness :
  exists pData,
    Convert_WAV
      (single_file "/a.wav"
         (header_with 1 258 44100 272 (lit "data" ++ le_bytes 4 2 ++ lit "ab")))
      "/a.wav" empty_slot
    = Returns RESULT_SUCCESS pData /\
    sampleRate pData = 44100 /\ channels pData = 2 /\
    bitsPerSample pData = 16.
Proof.
  apply (wide_fields_truncated
           (single_file "/a.wav"
              (header_with 1 258 44100 272
                 (lit "data" ++ le_bytes 4 2 ++ lit "ab")))
           "/a.wav"
           (header_with 1 258 44100 272
              (lit "data" ++ le_bytes 4 2 ++ lit "ab"))
           empty_slot 258 44100 272 36 2).
  - apply single_file_loaded; [reflexivity|vm_compute; discriminate].
  - split; reflexivity.
  - reflexivity.
  - reflexivity.
  - reflexivity.
  - split; [split; [vm_compute; discriminate|reflexivity]|].
    split; [reflexivity|].
    apply (forall_range _ 12 24). cbn [map seq].
    repeat constructor; vm_compute; discriminate.
  - reflexivity.
  - reflexivity.
Defined.

(** * core_utils.hpp: duplicates in containers *)

Section DuplicatesFacts.

Context {K T : Type}.
Variable T_eqb : T -> T -> bool.
Hypothesis T_eqb_spec : forall x y, T_eqb x y = true <-> x = y.

Lemma T_eqb_refl (x : T) : T_eqb x x = true.
Proof. now apply T_eqb_spec. Qed.

Lemma T_eqb_neq (x y : T) : T_eqb x y = false <-> x <> y.
Proof.
  split.
  - intros E H. apply T_eqb_spec in H. congruence.
  - intros H. destruct (T_eqb x y) eqn:E; [|reflexivity].
    apply T_eqb_spec in E. contradiction.
Qed.

Lemma existsb_T_eqb (x : T) (l : list T) :
  existsb (T_eqb x) l = true <-> In x l.
Proof.
  rewrite existsb_exists. split.
  - intros (y & Hy & E). apply T_eqb_spec in E. now subst.
  - intros H. exists x. split; [exact H|apply T_eqb_refl].
Qed.

Lemma occurrences_cons (x a : T) (v : list T) :
  occurrences T_eqb x (a :: v)
  = if T_eqb x a then S (occurrences T_eqb x v) else occurrences T_eqb x v.
Proof. unfold occurrences. cbn. now destruct (T_eqb x a). Qed.

Lemma occurrences_le_length (x : T) (v : list T) :
  (occurrences T_eqb x v <= List.length v)%nat.
Proof. apply filter_length_le. Qed.

Lemma occurrences_zero (x : T) (v : list T) :
  occurrences T_eqb x v = 0%nat <-> ~ In x v.
Proof.
  induction v as [|a v IH]; [cbn; tauto|].
  rewrite occurrences_cons. cbn [In].
  destruct (T_eqb x a) eqn:E.
  - apply T_eqb_spec in E. split; [discriminate|]. intros H. exfalso. auto.
  - apply T_eqb_neq in E. rewrite IH. split; [|tauto].
    intros H [C|C]; [congruence|auto].
Qed.

Lemma occurrences_In (x : T) (v : list T) :
  occurrences T_eqb x v <> 0%nat -> In x v.
Proof.
  induction v as [|a v IH]; [now cbn|].
  rewrite occurrences_cons. destruct (T_eqb x a) eqn:E.
  - apply T_eqb_spec in E. now left.
  - intros H. right. now apply IH.
Qed.

Lemma NoDup_occurrences (v : list T) :
  NoDup v <-> forall x, (occurrences T_eqb x v <= 1)%nat.
Proof.
  split.
  - induction 1 as [|a v Ha Hv IH]; intros x; [cbn; lia|].
    rewrite occurrences_cons. destruct (T_eqb x a) eqn:E; [|apply IH].
    apply T_eqb_spec in E. subst.
    apply occurrences_zero in Ha. lia.
  - induction v as [|a v IH]; intros H; constructor.
    + apply occurrences_zero. specialize (H a).
      rewrite occurrences_cons, T_eqb_refl in H. lia.
    + apply IH. intros x. specialize (H x). rewrite occurrences_cons in H.
      destruct (T_eqb x a); lia.
Qed.

Lemma occurrences_filter (f : T -> bool) (x : T) (v : list T) :
  occurrences T_eqb x (filter f v)
  = if f x then occurrences T_eqb x v else 0%nat.
Proof.
  induction v as [|a v IH]; [cbn; now destruct (f x)|].
  cbn [filter]. rewrite occurrences_cons.
  destruct (T_eqb x a) eqn:E.
  - apply T_eqb_spec in E. subst a.
    destruct (f x); [|exact IH].
    now rewrite occurrences_cons, T_eqb_refl, IH.
  - destruct (f a); [|exact IH].
    now rewrite occurrences_cons, E.
Qed.

Lemma short_NoDup (v : list T) : (List.length v < 2)%nat -> NoDup v.
Proof.
  destruct v as [|a [|b v]]; cbn; intros H; try lia.
  - constructor.
  - constructor; [intros []|constructor].
Qed.

(** The scan answers false exactly when the elements still to come are
    pairwise different and none of them has been seen. *)
Lemma ContainsDuplicates_loop_false (v : list T) :
  forall seen,
  ContainsDuplicates_loop T_eqb seen v = false
  <-> NoDup v /\ forall x, In x v -> ~ In x seen.
Proof.
  induction v as [|a v IH]; intros seen; cbn [ContainsDuplicates_loop].
  - split; [|reflexivity]. intros _. split; [constructor|intros x []].
  - unfold insert. destruct (existsb (T_eqb a) seen) eqn:E; cbn [negb].
    + apply existsb_T_eqb in E. split; [discriminate|].
      intros [_ H]. exfalso. apply (H a); [now left|exact E].
    + assert (Ha : ~ In a seen)
        by (intros C; apply existsb_T_eqb in C; congruence).
      rewrite IH. split.
      * intros [Hv Hs]. split.
        -- constructor; [|exact Hv]. intros C. apply (Hs a C). now left.
        -- intros x [<-|Hx]; [exact Ha|]. intros C. apply (Hs x Hx).
           now right.
      * intros [Hv Hs]. inversion Hv as [|? ? Hna Hv']; subst. split.
        -- exact Hv'.
        -- intros x Hx [<-|C]; [contradiction|]. apply (Hs x); [now right|].
           exact C.
Qed.

Lemma ContainsDuplicates_NoDup (v : list T) :
  ContainsDuplicates T_eqb v = false <-> NoDup v.
Proof.
  unfold ContainsDuplicates.
  destruct (Nat.ltb_spec (List.length v) 2) as [Hs|Hs].
  - split; [intros _; now apply short_NoDup|reflexivity].
  - rewrite ContainsDuplicates_loop_false. split; [tauto|].
    intros H. split; [exact H|]. intros x _ [].
Qed.

Lemma ContainsDuplicates_map_loop_values (m : list (K * T)) :
  forall seen,
  ContainsDuplicates_map_loop T_eqb seen m
  = ContainsDuplicates_loop T_eqb seen (map snd m).
Proof.
  induction m as [|[key value] m IH]; intros seen; [reflexivity|].
  cbn. destruct (insert T_eqb seen value) as [seen' inserted].
  destruct inserted; [apply IH|reflexivity].
Qed.

Lemma ContainsDuplicates_map_values (m : list (K * T)) :
  ContainsDuplicates_map T_eqb m = ContainsDuplicates T_eqb (map snd m).
Proof.
  unfold ContainsDuplicates_map, ContainsDuplicates.
  rewrite length_map. destruct (List.length m <? 2)%nat; [reflexivity|].
  apply ContainsDuplicates_map_loop_values.
Qed.

(** The counters after the counting loop: each key has gained the number
    of its occurrences, as long as no counter passes the range of
    [size_t]. *)
Lemma count_all_occurrences (v : list T) :
  forall counts : T -> Z,
  (forall x, 0 <= counts x /\
             counts x + Z.of_nat (occurrences T_eqb x v) < 2 ^ 64) ->
  forall x,
  count_all T_eqb counts v x = counts x + Z.of_nat (occurrences T_eqb x v).
Proof.
  induction v as [|a v IH]; intros counts Hc x; cbn [count_all].
  - cbn. lia.
  - rewrite IH.
    + unfold increment. rewrite occurrences_cons.
      destruct (T_eqb a x) eqn:E.
      * apply T_eqb_spec in E. subst a. rewrite T_eqb_refl.
        specialize (Hc x). rewrite occurrences_cons, T_eqb_refl in Hc.
        rewrite to_size_t_small; lia.
      * assert (E' : T_eqb x a = false)
          by (apply T_eqb_neq; apply T_eqb_neq in E; congruence).
        now rewrite E'.
    + intros y. specialize (Hc y). rewrite occurrences_cons in Hc.
      unfold increment. destruct (T_eqb a y) eqn:E.
      * apply T_eqb_spec in E. subst a. rewrite T_eqb_refl in Hc.
        rewrite to_size_t_small; lia.
      * assert (E' : T_eqb y a = false)
          by (apply T_eqb_neq; apply T_eqb_neq in E; congruence).
        rewrite E' in Hc. lia.
Qed.

Lemma count_all_from_zero (v : list T) (x : T) :
  Z.of_nat (List.length v) < 2 ^ 64 ->
  count_all T_eqb (fun _ => 0) v x = Z.of_nat (occurrences T_eqb x v).
Proof.
  intros H. rewrite count_all_occurrences; [lia|].
  intros y. pose proof (occurrences_le_length y v). lia.
Qed.

Lemma count_all_map_values (m : list (K * T)) :
  forall counts,
  count_all_map T_eqb counts m = count_all T_eqb counts (map snd m).
Proof.
  induction m as [|[key value] m IH]; intros counts; [reflexivity|].
  cbn. apply IH.
Qed.

Lemma erase_loop_filter (counts : T -> Z) (m : list (K * T)) :
  erase_loop counts m = filter (fun e => negb (counts (snd e) >? 1)) m.
Proof.
  induction m as [|[key value] m IH]; [reflexivity|].
  cbn. rewrite IH. now destruct (counts value >? 1).
Qed.

(** The vector overload keeps, in their order, the elements that occur
    once. *)
Lemma RemoveDuplicates_filter (v : list T) :
  Z.of_nat (List.length v) < 2 ^ 64 ->
  RemoveDuplicates T_eqb v
  = filter (fun x => (occurrences T_eqb x v =? 1)%nat) v.
Proof.
  intros H. unfold RemoveDuplicates.
  destruct (Nat.ltb_spec (List.length v) 2) as [Hs|Hs].
  - destruct v as [|a [|b v]]; cbn in Hs; try lia; [reflexivity|].
    cbn [filter]. now rewrite occurrences_cons, T_eqb_refl.
  - apply filter_ext. intros x. rewrite count_all_from_zero by exact H.
    destruct (Nat.eqb_spec (occurrences T_eqb x v) 1) as [->|Hn];
      [reflexivity|]. apply Z.eqb_neq. lia.
Qed.

(** The map overloads keep, in iteration order, the entries whose value
    occurs once among the values. *)
Lemma RemoveDuplicates_map_filter (m : list (K * T)) :
  Z.of_nat (List.length m) < 2 ^ 64 ->
  RemoveDuplicates_map T_eqb m
  = filter (fun e => (occurrences T_eqb (snd e) (map snd m) =? 1)%nat) m.
Proof.
  intros H. unfold RemoveDuplicates_map.
  destruct (Nat.ltb_spec (List.length m) 2) as [Hs|Hs].
  - destruct m as [|[k a] [|b m]]; cbn in Hs; try lia; [reflexivity|].
    cbn [filter map snd]. now rewrite occurrences_cons, T_eqb_refl.
  - rewrite erase_loop_filter. apply filter_ext_in. intros [k x] Hin.
    cbn [snd]. rewrite count_all_map_values, count_all_from_zero
      by (rewrite length_map; exact H).
    assert (Hx : In x (map snd m)) by (apply in_map_iff; now exists (k, x)).
    assert (Hpos : occurrences T_eqb x (map snd m) <> 0%nat)
      by (intros C; now apply occurrences_zero in C).
    destruct (Nat.eqb_spec (occurrences T_eqb x (map snd m)) 1) as [->|Hn];
      [reflexivity|].
    apply negb_false_iff. apply Z.gtb_lt. lia.
Qed.

Lemma NoDup_once (v : list T) :
  NoDup (filter (fun x => (occurrences T_eqb x v =? 1)%nat) v).
Proof.
  apply NoDup_occurrences. intros x. rewrite occurrences_filter.
  destruct (Nat.eqb_spec (occurrences T_eqb x v) 1); lia.
Qed.

End DuplicatesFacts.

Lemma map_snd_filter {K T : Type} (g : T -> bool) (m : list (K * T)) :
  map snd (filter (fun e => g (snd e)) m) = filter g (map snd m).
Proof.
  induction m as [|[k x] m IH]; [reflexivity|].
  cbn. destruct (g x); cbn; now rewrite IH.
Qed.

(** X13: ContainsDuplicates on a vector answers false exactly when the
    elements are pairwise different (vectors of fewer than two elements
    included), for an element type whose equality test decides equality. *)
Theorem ContainsDuplicates_false_iff {T : Type} (T_eqb : T -> T -> bool)
    (v : list T) :
  (forall x y, T_eqb x y = true <-> x = y) ->
  ContainsDuplicates T_eqb v = false <-> NoDup v.
Proof. intros Hspec. now apply ContainsDuplicates_NoDup. Qed.

Lemma ContainsDuplicates_false_iff_witness :
  ContainsDuplicates Z.eqb [3; 1; 2] = false <-> NoDup [3; 1; 2].
Proof. apply (ContainsDuplicates_false_iff Z.eqb [3; 1; 2] Z.eqb_eq). Defined.

(** X14: ContainsDuplicates on a map or unordered_map looks at the mapped
    values only: it answers false exactly when the values of the entries
    are pairwise different, for a value type whose equality test decides
    equality. *)
Theorem ContainsDuplicates_map_false_iff {K T : Type}
    (T_eqb : T -> T -> bool) (m : list (K * T)) :
  (forall x y, T_eqb x y = true <-> x = y) ->
  ContainsDuplicates_map T_eqb m = false <-> NoDup (map snd m).
Proof.
  intros Hspec. rewrite ContainsDuplicates_map_values.
  now apply ContainsDuplicates_NoDup.
Qed.

Lemma ContainsDuplicates_map_false_iff_witness :
  ContainsDuplicates_map Z.eqb [("a", 1); ("b", 2); ("c", 1)] = false
  <-> NoDup (map snd [("a", 1); ("b", 2); ("c", 1)]).
Proof.
  apply (ContainsDuplicates_map_false_iff Z.eqb
           [("a", 1); ("b", 2); ("c", 1)] Z.eqb_eq).
Defined.

(** X15: for an element type whose equality test decides equality (which
    leaves out, for one, floating-point elements holding a NaN, unequal to
    itself), RemoveDuplicates on a vector of fewer than 2^64 elements
    keeps, in their original order, exactly the elements that occur once;
    every copy of a value that occurs more than once is dropped, the first
    one too. *)
Theorem RemoveDuplicates_keeps_once {T : Type} (T_eqb : T -> T -> bool)
    (v : list T) :
  (forall x y, T_eqb x y = true <-> x = y) ->
  Z.of_nat (List.length v) < 2 ^ 64 ->
  RemoveDuplicates T_eqb v
  = filter (fun x => (occurrences T_eqb x v =? 1)%nat) v
  /\ forall x, In x (RemoveDuplicates T_eqb v)
               <-> occurrences T_eqb x v = 1%nat.
Proof.
  intros Hspec Hsize.
  rewrite (RemoveDuplicates_filter T_eqb Hspec v Hsize).
  split; [reflexivity|]. intros x. rewrite filter_In, Nat.eqb_eq.
  split; [tauto|]. intros H. split; [|exact H].
  apply (occurrences_In T_eqb Hspec). lia.
Qed.

Lemma RemoveDuplicates_keeps_once_witness :
  RemoveDuplicates Z.eqb [5; 7; 5; 9; 5; 8]
  = filter (fun x => Nat.eqb (occurrences Z.eqb x [5; 7; 5; 9; 5; 8]) 1)
      [5; 7; 5; 9; 5; 8]
  /\ forall x, In x (RemoveDuplicates Z.eqb [5; 7; 5; 9; 5; 8])
               <-> occurrences Z.eqb x [5; 7; 5; 9; 5; 8] = 1%nat.
Proof.
  apply (RemoveDuplicates_keeps_once Z.eqb [5; 7; 5; 9; 5; 8] Z.eqb_eq).
  reflexivity.
Defined.

(** X16: for an element type whose equality test decides equality, what
    RemoveDuplicates leaves of a vector of fewer than 2^64 elements has no
    duplicates, so ContainsDuplicates answers false on it, and a second
    call changes nothing. *)
Theorem RemoveDuplicates_result_distinct {T : Type} (T_eqb : T -> T -> bool)
    (v : list T) :
  (forall x y, T_eqb x y = true <-> x = y) ->
  Z.of_nat (List.length v) < 2 ^ 64 ->
  ContainsDuplicates T_eqb (RemoveDuplicates T_eqb v) = false
  /\ RemoveDuplicates T_eqb (RemoveDuplicates T_eqb v)
     = RemoveDuplicates T_eqb v.
Proof.
  intros Hspec Hsize.
  rewrite (RemoveDuplicates_filter T_eqb Hspec v Hsize).
  pose proof (NoDup_once T_eqb Hspec v) as Hnd.
  set (w := filter _ v) in *.
  assert (Hw : Z.of_nat (List.length w) < 2 ^ 64).
  { pose proof (filter_length_le
                  (fun x => (occurrences T_eqb x v =? 1)%nat) v).
    subst w. lia. }
  split; [now apply ContainsDuplicates_NoDup|].
  rewrite (RemoveDuplicates_filter T_eqb Hspec w Hw).
  apply forallb_filter_id, forallb_forall. intros x Hx.
  apply Nat.eqb_eq.
  pose proof (proj1 (NoDup_occurrences T_eqb Hspec w) Hnd x).
  assert (occurrences T_eqb x w <> 0%nat)
    by (intros C; now apply (occurrences_zero T_eqb Hspec) in C).
  lia.
Qed.

Lemma RemoveDuplicates_result_distinct_witness :
  ContainsDuplicates Z.eqb (RemoveDuplicates Z.eqb [5; 7; 5; 9; 5; 8])
  = false
  /\ RemoveDuplicates Z.eqb (RemoveDuplicates Z.eqb [5; 7; 5; 9; 5; 8])
     = RemoveDuplicates Z.eqb [5; 7; 5; 9; 5; 8].
Proof.
  apply (RemoveDuplicates_result_distinct Z.eqb [5; 7; 5; 9; 5; 8]
           Z.eqb_eq).
  reflexivity.
Defined.

(** X17: for an element type whose equality test decides equality (which
    leaves out, for one, floating-point elements holding a NaN, unequal to
    itself), RemoveDuplicates leaves a vector on which ContainsDuplicates
    answers false as it is. *)
Theorem RemoveDuplicates_without_duplicates {T : Type}
    (T_eqb : T -> T -> bool) (v : list T) :
  (forall x y, T_eqb x y = true <-> x = y) ->
  ContainsDuplicates T_eqb v = false ->
  RemoveDuplicates T_eqb v = v.
Proof.
  intros Hspec H. apply (ContainsDuplicates_NoDup T_eqb Hspec) in H.
  unfold RemoveDuplicates.
  destruct (List.length v <? 2)%nat; [reflexivity|].
  apply forallb_filter_id, forallb_forall. intros x Hx.
  pose proof (proj1 (NoDup_occurrences T_eqb Hspec v) H) as Hocc.
  rewrite (count_all_occurrences T_eqb Hspec).
  - assert (occurrences T_eqb x v <> 0%nat)
      by (intros C; now apply (occurrences_zero T_eqb Hspec) in C).
    specialize (Hocc x). apply Z.eqb_eq. lia.
  - intros y. specialize (Hocc y). lia.
Qed.

Lemma RemoveDuplicates_without_duplicates_witness :
  RemoveDuplicates Z.eqb [3; 1; 2] = [3; 1; 2].
Proof.
  apply (RemoveDuplicates_without_duplicates Z.eqb [3; 1; 2] Z.eqb_eq).
  reflexivity.
Defined.

(** X18: for a value type whose equality test decides equality,
    RemoveDuplicates on a map or unordered_map of fewer than 2^64 entries
    keeps, in iteration order and with their keys, exactly the entries whose
    value occurs once among the values; the values left are pairwise
    different, so ContainsDuplicates answers false on the result. *)
Theorem RemoveDuplicates_map_keeps_once {K T : Type}
    (T_eqb : T -> T -> bool) (m : list (K * T)) :
  (forall x y, T_eqb x y = true <-> x = y) ->
  Z.of_nat (List.length m) < 2 ^ 64 ->
  RemoveDuplicates_map T_eqb m
  = filter (fun e => (occurrences T_eqb (snd e) (map snd m) =? 1)%nat) m
  /\ ContainsDuplicates_map T_eqb (RemoveDuplicates_map T_eqb m) = false.
Proof.
  intros Hspec Hsize.
  rewrite (RemoveDuplicates_map_filter T_eqb Hspec m Hsize).
  split; [reflexivity|].
  rewrite ContainsDuplicates_map_values.
  apply (ContainsDuplicates_NoDup T_eqb Hspec).
  rewrite (map_snd_filter
             (fun x => (occurrences T_eqb x (map snd m) =? 1)%nat) m).
  apply (NoDup_once T_eqb Hspec).
Qed.

Lemma RemoveDuplicates_map_keeps_once_witness :
  RemoveDuplicates_map Z.eqb [("a", 1); ("b", 2); ("c", 1); ("d", 3)]
  = filter
      (fun e =>
         Nat.eqb
           (occurrences Z.eqb (snd e)
              (map snd [("a", 1); ("b", 2); ("c", 1); ("d", 3)])) 1)
      [("a", 1); ("b", 2); ("c", 1); ("d", 3)]
  /\ ContainsDuplicates_map Z.eqb
       (RemoveDuplicates_map Z.eqb
          [("a", 1); ("b", 2); ("c", 1); ("d", 3)])
     = false.
Proof.
  apply (RemoveDuplicates_map_keeps_once Z.eqb
           [("a", 1); ("b", 2); ("c", 1); ("d", 3)] Z.eqb_eq).
  reflexivity.
Defined.

(** * core_utils.hpp: ToVar and FromVar *)

(** X19: an integral handle survives the trip through FromVar and ToVar:
    for a signed or unsigned type of at most 64 bits, ToVar at that type
    gives back every value of the type that FromVar was given, negative
    ones included. *)
Theorem ToVar_FromVar (I : integral) (h : Z) :
  match I with Unsigned w | Signed w => 0 < w <= 64 end ->
  in_range I h ->
  ToVar I (FromVar h) = h.
Proof.
  unfold ToVar, FromVar, uint64_t, static_cast.
  destruct I as [w|w]; intros Hw Hr; cbn [in_range] in Hr.
  - assert (D : (2 ^ w | 2 ^ 64)).
    { exists (2 ^ (64 - w)). rewrite <- Z.pow_add_r by lia. f_equal. lia. }
    rewrite Z.mod_mod_divide by exact D. apply Z.mod_small. exact Hr.
  - assert (D : (2 ^ w | 2 ^ 64)).
    { exists (2 ^ (64 - w)). rewrite <- Z.pow_add_r by lia. f_equal. lia. }
    rewrite <- Z.add_mod_idemp_l, Z.mod_mod_divide by (exact D || lia).
    rewrite Z.add_mod_idemp_l by lia.
    assert (P : 2 ^ w = 2 * 2 ^ (w - 1)).
    { rewrite <- Z.pow_succ_r by lia. f_equal. lia. }
    rewrite Z.mod_small; lia.
Qed.

Lemma ToVar_FromVar_witness :
  ToVar (Signed 32) (FromVar (-1)) = -1
  /\ ToVar (Unsigned 8) (FromVar 200) = 200.
Proof.
  split.
  - apply (ToVar_FromVar (Signed 32) (-1)); cbn; lia.
  - apply (ToVar_FromVar (Unsigned 8) 200); cbn; lia.
Defined.

End KalaHeaders.
